(** * wangle/ssl/SSLUtil.h: a shallow embedding and its properties

    The definitions come first:
    - [SSLResumeEnum], [SSLErrorEnum], [SSLException] and
      [getResumeState];
    - the ex_data callbacks [exDataStdStringDup] / [exDataStdStringFree],
      run on a heap of [std::string] objects and [void*] words;
    - the three index-acquisition functions, run by several threads that
      share one [std::mutex];
    - the two certificate accessors, which the header only declares.
    The properties follow, in the same order. *)

From Stdlib Require Import Ascii.
From stdpp Require Import base numbers option list gmap strings.

Local Open Scope Z_scope.

(* ===================================================================== *)
(** * SSL session establish/resume status *)
(* ===================================================================== *)

(** [enum class SSLResumeEnum : uint8_t], enumerators in declaration
    order. *)
Inductive SSLResumeEnum : Set :=
| HANDSHAKE
| RESUME_SESSION_ID
| RESUME_TICKET
| NA.

(** The enumerator values written in the header. *)
Definition SSLResumeEnum_value (e : SSLResumeEnum) : Z :=
  match e with
  | HANDSHAKE => 0
  | RESUME_SESSION_ID => 1
  | RESUME_TICKET => 3
  | NA => 2
  end.

(** [static_cast<SSLResumeEnum>(n)]: [n] is brought into the underlying
    [uint8_t] first; [None] when the byte is none of the declared
    enumerators. *)
Definition SSLResumeEnum_of_value (n : Z) : option SSLResumeEnum :=
  let b := n mod 256 in
  if b =? 0 then Some HANDSHAKE
  else if b =? 1 then Some RESUME_SESSION_ID
  else if b =? 3 then Some RESUME_TICKET
  else if b =? 2 then Some NA
  else None.

(** The underlying type is [uint8_t]. *)
Definition uint8_max : Z := 255.

(** [enum class SSLErrorEnum]: no explicit values, so the enumerators
    count up from zero. *)
Inductive SSLErrorEnum : Set :=
| NO_ERROR
| TIMEOUT
| DROPPED.

Definition SSLErrorEnum_value (e : SSLErrorEnum) : Z :=
  match e with
  | NO_ERROR => 0
  | TIMEOUT => 1
  | DROPPED => 2
  end.

(* ===================================================================== *)
(** * SSLException *)
(* ===================================================================== *)

Module SSLException.

(** The private data members.  [latency_] is a signed count of
    milliseconds, [bytesRead_] a [uint64_t]; [what_] is the message held
    by the [std::runtime_error] base. *)
Record t : Type := mk {
  what_ : string;
  error_ : SSLErrorEnum;
  latency_ : Z;
  bytesRead_ : Z
}.

(** The default member initialisers of the class:
    [error_{SSLErrorEnum::NO_ERROR}] and [bytesRead_{0}]. *)
Definition default_error : SSLErrorEnum := NO_ERROR.
Definition default_bytesRead : Z := 0.

(** Modelled from the spec: the body of the constructor
    [SSLException(error, latency, bytesRead)], which the header only
    declares.  The spec's contract is "constructed with {category,
    latency, bytesRead}", each kept as the field of the same name; the
    text of the [runtime_error] message is not specified and is taken as
    a parameter. *)
Definition make (msg : string) (error : SSLErrorEnum) (latency : Z)
    (bytesRead : Z) : t :=
  {| what_ := msg; error_ := error; latency_ := latency;
     bytesRead_ := bytesRead |}.

(** The three inline accessors. *)
Definition getError (e : t) : SSLErrorEnum := error_ e.
Definition getLatency (e : t) : Z := latency_ e.
Definition getBytesRead (e : t) : Z := bytesRead_ e.

(** The public, non-constructor interface of the class as declared in
    the header: three [const] member functions.  A call takes the
    object and gives back the answer together with the object after the
    call. *)
Inductive method : Set := GetError | GetLatency | GetBytesRead.

Inductive answer : Set :=
| AError (e : SSLErrorEnum)
| ALatency (ms : Z)
| ABytes (n : Z).

Definition call (m : method) (e : t) : answer * t :=
  match m with
  | GetError => (AError (getError e), e)
  | GetLatency => (ALatency (getLatency e), e)
  | GetBytesRead => (ABytes (getBytesRead e), e)
  end.

(** The object left by a sequence of calls. *)
Fixpoint after_calls (ms : list method) (e : t) : t :=
  match ms with
  | [] => e
  | m :: ms' => after_calls ms' (snd (call m e))
  end.

End SSLException.

(* ===================================================================== *)
(** * getResumeState *)
(* ===================================================================== *)

(** What [getResumeState] reads of a [folly::AsyncSSLSocket]: the results
    of its two [const] queries. *)
Record AsyncSSLSocket : Set := {
  getSSLSessionReused : bool;
  sessionIDResumed : bool
}.

Definition getResumeState (sslSocket : AsyncSSLSocket) : SSLResumeEnum :=
  if getSSLSessionReused sslSocket
  then (if sessionIDResumed sslSocket
        then RESUME_SESSION_ID
        else RESUME_TICKET)
  else HANDSHAKE.

(* ===================================================================== *)
(** * Memory: objects, heaps and the heap monad *)
(* ===================================================================== *)

(** Addresses; [nullptr] is address zero and is never allocated. *)
Abbreviation addr := N (only parsing).
Definition nullptr : addr := 0%N.

(** What an address may hold: a [std::string] object, a [void*] word or
    an [int]. *)
Inductive object : Type :=
| ObjString (s : string)
| ObjPtr (p : addr)
| ObjInt (n : Z).

(** Memory effects, in program order. *)
Inductive mem_event : Type :=
| EvRead (a : addr)
| EvWrite (a : addr) (o : object)
| EvNew (a : addr) (s : string)
| EvDelete (a : addr).

#[global] Instance object_eq_dec : EqDecision object.
Proof. solve_decision. Defined.
#[global] Instance mem_event_eq_dec : EqDecision mem_event.
Proof. solve_decision. Defined.

Record mstate : Type := MState {
  mem : gmap N object;
  trace : list mem_event
}.

(** Heap computations: a state transformer that may have no defined
    behaviour ([None]: a wild or mistyped pointer, a double delete). *)
Definition M (A : Type) : Type := mstate → option (A * mstate).

#[global] Instance M_ret : MRet M := λ A a st, Some (a, st).
#[global] Instance M_bind : MBind M := λ A B f m st,
  match m st with
  | Some (a, st') => f a st'
  | None => None
  end.

Definition emit (e : mem_event) (st : mstate) : mstate :=
  {| mem := mem st; trace := trace st ++ [e] |}.

(** [*p] for [p : void**]. *)
Definition load_ptr (p : addr) : M addr := λ st,
  match mem st !! p with
  | Some (ObjPtr v) => Some (v, emit (EvRead p) st)
  | _ => None
  end.

(** [*p = v] for [p : void**]. *)
Definition store_ptr (p : addr) (v : addr) : M unit := λ st,
  match mem st !! p with
  | Some (ObjPtr _) =>
      Some (tt, {| mem := <[p := ObjPtr v]> (mem st);
                   trace := trace st ++ [EvWrite p (ObjPtr v)] |})
  | _ => None
  end.

(** [*p] for [p : std::string*]. *)
Definition load_string (p : addr) : M string := λ st,
  match mem st !! p with
  | Some (ObjString s) => Some (s, emit (EvRead p) st)
  | _ => None
  end.

(** [*p = s] for [p : std::string*]. *)
Definition assign_string (p : addr) (s : string) : M unit := λ st,
  match mem st !! p with
  | Some (ObjString _) =>
      Some (tt, {| mem := <[p := ObjString s]> (mem st);
                   trace := trace st ++ [EvWrite p (ObjString s)] |})
  | _ => None
  end.

Section Allocator.

(** [operator new]: where the next object is placed, given the live
    heap.  Exhaustion of memory is not modelled. *)
Variable operator_new : gmap N object → addr.

(** [new std::string(s)]. *)
Definition new_string (s : string) : M addr := λ st,
  let q := operator_new (mem st) in
  Some (q, {| mem := <[q := ObjString s]> (mem st);
              trace := trace st ++ [EvNew q s] |}).

(** [delete p] for [p : std::string*], [p] not null. *)
Definition delete_string (p : addr) : M unit := λ st,
  match mem st !! p with
  | Some (ObjString _) =>
      Some (tt, {| mem := delete p (mem st);
                   trace := trace st ++ [EvDelete p] |})
  | _ => None
  end.

(* =================================================================== *)
(** * The ex_data callbacks *)
(* =================================================================== *)

(** [exDataStdStringDup(to, from, ptr, idx, argl, argp)].  Only [ptr] is
    named in the source; whichever of [void*] and [void**] the library
    declares it as, it is used as a [void**]. *)
Definition exDataStdStringDup (_to _from : addr) (ptr : addr)
    (_idx : Z) (_argl : Z) (_argp : addr) : M Z :=
  let dataPtr := ptr in
  strData ← load_ptr dataPtr;
  (if bool_decide (strData ≠ nullptr)
   then s ← load_string strData;
        q ← new_string s;
        store_ptr dataPtr q
   else mret tt);;
  mret 1.

(** [exDataStdStringFree(parent, ptr, ad, idx, argl, argp)]. *)
Definition exDataStdStringFree (_parent : addr) (ptr : addr)
    (_ad : addr) (_idx : Z) (_argl : Z) (_argp : addr) : M unit :=
  if bool_decide (ptr ≠ nullptr)
  then let strPtr := ptr in delete_string strPtr
  else mret tt.

(** The free callback run on the successive values of a slot. *)
Fixpoint free_each (parent ad : addr) (idx argl : Z) (argp : addr)
    (ptrs : list addr) : M unit :=
  match ptrs with
  | [] => mret tt
  | p :: rest =>
      exDataStdStringFree parent p ad idx argl argp;;
      free_each parent ad idx argl argp rest
  end.

End Allocator.

(** The slot values that own a string, in order, and the heap once each
    of them has been deleted. *)
Definition owned (ptrs : list addr) : list addr :=
  filter (λ p, p ≠ nullptr) ptrs.

Definition release_all (ptrs : list addr) (h : gmap N object)
    : gmap N object :=
  foldl (λ h' p, delete p h') h (owned ptrs).

(** How often [p] is deleted in a trace. *)
Definition deletions (p : addr) (tr : list mem_event) : nat :=
  length (filter (λ e, e = EvDelete p) tr).

(** An allocator for examples: some address that is neither null nor in
    use. *)
Definition bump_allocator (h : gmap N object) : addr :=
  fresh ({[ nullptr ]} ∪ dom h).

(** A heap for examples: a slot word at 1 pointing to a string at 2, a
    second string at 3, and a slot word at 4 holding null. *)
Definition example_heap : gmap N object :=
  {[ 1%N := ObjPtr 2%N; 2%N := ObjString "abc"; 3%N := ObjString "de";
     4%N := ObjPtr nullptr ]}.

Definition example_state : mstate := MState example_heap [].

(* ===================================================================== *)
(** * The ex_data index facility and the code that calls it *)
(* ===================================================================== *)

(** The three kinds of library object the header asks an index for. *)
Inductive ex_class : Set :=
| CRYPTO_EX_INDEX_SSL_CTX
| CRYPTO_EX_INDEX_RSA
| CRYPTO_EX_INDEX_SSL_SESSION.

#[global] Instance ex_class_eq_dec : EqDecision ex_class.
Proof. solve_decision. Defined.

(** A function pointer handed to the facility. *)
Inductive callback : Set :=
| CbNull
| CbExDataStdStringDup
| CbExDataStdStringFree.

(** The arguments of [X_get_ex_new_index(argl, argp, new_func, dup_func,
    free_func)]. *)
Record ex_args : Set := ExArgs {
  argl : Z;
  argp : addr;
  new_func : callback;
  dup_func : callback;
  free_func : callback
}.

(** Straight-line code over the shared state: the mutex [sIndexLock_],
    [int] storage reached through a pointer, and the facility.  A
    continuation takes the value an instruction produces. *)
Inductive cmd : Type :=
| Return
| LockGuard (k : cmd)
| Unlock (k : cmd)
| LoadInt (p : addr) (k : Z → cmd)
| StoreInt (p : addr) (v : Z) (k : cmd)
| GetExNewIndex (c : ex_class) (a : ex_args) (k : Z → cmd).

Definition SSL_CTX_get_ex_new_index (a : ex_args) (k : Z → cmd) : cmd :=
  GetExNewIndex CRYPTO_EX_INDEX_SSL_CTX a k.
Definition RSA_get_ex_new_index (a : ex_args) (k : Z → cmd) : cmd :=
  GetExNewIndex CRYPTO_EX_INDEX_RSA a k.
Definition SSL_SESSION_get_ex_new_index (a : ex_args) (k : Z → cmd) : cmd :=
  GetExNewIndex CRYPTO_EX_INDEX_SSL_SESSION a k.

(** [std::lock_guard g(sIndexLock_)] opens the body; the guard's
    destructor runs where the body ends, on either branch of the [if]. *)
Definition getSSLCtxExIndex (pindex : addr) : cmd :=
  LockGuard (
  LoadInt pindex (λ v,
  if v <? 0
  then SSL_CTX_get_ex_new_index
         (ExArgs 0 nullptr CbNull CbNull CbNull) (λ r,
       StoreInt pindex r (
       Unlock Return))
  else Unlock Return)).

Definition getRSAExIndex (pindex : addr) : cmd :=
  LockGuard (
  LoadInt pindex (λ v,
  if v <? 0
  then RSA_get_ex_new_index
         (ExArgs 0 nullptr CbNull CbNull CbNull) (λ r,
       StoreInt pindex r (
       Unlock Return))
  else Unlock Return)).

Definition getSSLSessionExStrIndex (pindex : addr) : cmd :=
  LockGuard (
  LoadInt pindex (λ v,
  if v <? 0
  then SSL_SESSION_get_ex_new_index
         (ExArgs 0 nullptr CbNull CbExDataStdStringDup CbExDataStdStringFree)
         (λ r,
       StoreInt pindex r (
       Unlock Return))
  else Unlock Return)).

(** A call of one of the three functions with its argument. *)
Inductive call : Set :=
| CallSSLCtx (pindex : addr)
| CallRSA (pindex : addr)
| CallSSLSession (pindex : addr).

Definition call_code (c : call) : cmd :=
  match c with
  | CallSSLCtx p => getSSLCtxExIndex p
  | CallRSA p => getRSAExIndex p
  | CallSSLSession p => getSSLSessionExStrIndex p
  end.

Definition call_class (c : call) : ex_class :=
  match c with
  | CallSSLCtx _ => CRYPTO_EX_INDEX_SSL_CTX
  | CallRSA _ => CRYPTO_EX_INDEX_RSA
  | CallSSLSession _ => CRYPTO_EX_INDEX_SSL_SESSION
  end.

Definition call_ptr (c : call) : addr :=
  match c with
  | CallSSLCtx p | CallRSA p | CallSSLSession p => p
  end.

(** A thread: the code it is running and the calls it will make next. *)
Record thread : Type := Thread {
  cur : cmd;
  todo : list call
}.

(** One invocation of the facility: who asked, for which class, and the
    value returned. *)
Record ex_event : Set := ExEvent {
  ev_thread : nat;
  ev_class : ex_class;
  ev_result : Z
}.

(** The facility handed out an index: its result is not negative. *)
Definition is_grant (cl : ex_class) (e : ex_event) : bool :=
  bool_decide (ev_class e = cl) && (0 <=? ev_result e).

Definition is_invocation (cl : ex_class) (e : ex_event) : bool :=
  bool_decide (ev_class e = cl).

Definition grants (cl : ex_class) (log : list ex_event) : nat :=
  length (filter (λ e, is_grant cl e = true) log).

Definition invocations (cl : ex_class) (log : list ex_event) : nat :=
  length (filter (λ e, is_invocation cl e = true) log).

(** How a call ends: it returns, it throws, or its behaviour is
    undefined. *)
Inductive outcome (A : Type) : Type :=
| Returned (a : A)
| Thrown
| Undefined.
Arguments Returned {A} a.
Arguments Thrown {A}.
Arguments Undefined {A}.

Section Facility.

(** The library's state and its [get_ex_new_index]: a new index, or a
    negative value when none can be had. *)
Variable ex_state : Type.
Variable get_ex_new_index : ex_class → ex_args → ex_state → Z * ex_state.

Record world : Type := World {
  wmem : gmap N object;
  sIndexLock_ : option nat;
  ex : ex_state;
  calls_log : list ex_event;
  threads : list thread
}.

Definition set_thread (i : nat) (t : thread) (w : world) : world :=
  {| wmem := wmem w; sIndexLock_ := sIndexLock_ w; ex := ex w;
     calls_log := calls_log w; threads := <[i := t]> (threads w) |}.

Definition set_lock (o : option nat) (w : world) : world :=
  {| wmem := wmem w; sIndexLock_ := o; ex := ex w;
     calls_log := calls_log w; threads := threads w |}.

Definition set_mem (m : gmap N object) (w : world) : world :=
  {| wmem := m; sIndexLock_ := sIndexLock_ w; ex := ex w;
     calls_log := calls_log w; threads := threads w |}.

Definition set_ex (x : ex_state) (e : ex_event) (w : world) : world :=
  {| wmem := wmem w; sIndexLock_ := sIndexLock_ w; ex := x;
     calls_log := calls_log w ++ [e]; threads := threads w |}.

(** The first instruction of [c], run by thread [i]: the code left to
    run and the world after it.  A thread that finds the mutex taken by
    another stays where it is; locking a mutex one holds, unlocking one
    that one does not hold and reaching through a pointer to no [int]
    are [Undefined]. *)
Definition instr (i : nat) (c : cmd) (w : world) : outcome (cmd * world) :=
  match c with
  | Return => Returned (Return, w)
  | LockGuard k =>
      match sIndexLock_ w with
      | None => Returned (k, set_lock (Some i) w)
      | Some j => if decide (j = i) then Undefined else Returned (c, w)
      end
  | Unlock k =>
      if decide (sIndexLock_ w = Some i)
      then Returned (k, set_lock None w)
      else Undefined
  | LoadInt p k =>
      match wmem w !! p with
      | Some (ObjInt v) => Returned (k v, w)
      | _ => Undefined
      end
  | StoreInt p v k =>
      match wmem w !! p with
      | Some (ObjInt _) => Returned (k, set_mem (<[p := ObjInt v]> (wmem w)) w)
      | _ => Undefined
      end
  | GetExNewIndex cl a k =>
      let '(r, x) := get_ex_new_index cl a (ex w) in
      Returned (k r, set_ex x (ExEvent i cl r) w)
  end.

(** The scheduler lets thread [i] move once.  A thread that has returned
    starts its next call; one with nothing left, or a thread that does
    not exist, leaves the world as it is; a thread waiting for the mutex
    stays where it is. *)
Definition step (i : nat) (w : world) : option world :=
  match threads w !! i with
  | None => Some w
  | Some t =>
      match cur t with
      | Return =>
          match todo t with
          | [] => Some w
          | c :: rest => Some (set_thread i (Thread (call_code c) rest) w)
          end
      | c =>
          match instr i c w with
          | Returned (c', w') => Some (set_thread i (Thread c' (todo t)) w')
          | _ => None
          end
      end
  end.

Fixpoint run (sched : list nat) (w : world) : option world :=
  match sched with
  | [] => Some w
  | i :: rest =>
      match step i w with
      | Some w' => run rest w'
      | None => None
      end
  end.

(** A thread whose code starts past the [LockGuard] of a call and has
    not yet reached its [Return] is between taking the mutex and giving
    it back. *)
Definition in_critical_section (c : cmd) : bool :=
  match c with
  | Return | LockGuard _ => false
  | Unlock _ | LoadInt _ _ | StoreInt _ _ _ | GetExNewIndex _ _ _ => true
  end.

(** Every thread is about to make its calls; nobody holds the mutex. *)
Definition init_world (progs : list (list call)) (m : gmap N object)
    (x : ex_state) : world :=
  {| wmem := m; sIndexLock_ := None; ex := x; calls_log := [];
     threads := map (Thread Return) progs |}.

(** A call run from start to end by thread [i] with no other thread
    moving. *)
Fixpoint exec (i : nat) (c : cmd) (w : world) : outcome world :=
  match c with
  | Return => Returned w
  | LockGuard k =>
      match sIndexLock_ w with
      | None => exec i k (set_lock (Some i) w)
      | Some _ => Undefined
      end
  | Unlock k =>
      if decide (sIndexLock_ w = Some i)
      then exec i k (set_lock None w)
      else Undefined
  | LoadInt p k =>
      match wmem w !! p with
      | Some (ObjInt v) => exec i (k v) w
      | _ => Undefined
      end
  | StoreInt p v k =>
      match wmem w !! p with
      | Some (ObjInt _) => exec i k (set_mem (<[p := ObjInt v]> (wmem w)) w)
      | _ => Undefined
      end
  | GetExNewIndex cl a k =>
      let '(r, x) := get_ex_new_index cl a (ex w) in
      exec i (k r) (set_ex x (ExEvent i cl r) w)
  end.

End Facility.

Arguments World {ex_state}.
Arguments wmem {ex_state}.
Arguments sIndexLock_ {ex_state}.
Arguments ex {ex_state}.
Arguments calls_log {ex_state}.
Arguments threads {ex_state}.
Arguments set_thread {ex_state}.
Arguments set_lock {ex_state}.
Arguments set_mem {ex_state}.
Arguments set_ex {ex_state}.
Arguments init_world {ex_state}.
Arguments instr {ex_state}.
Arguments step {ex_state}.
Arguments run {ex_state}.
Arguments exec {ex_state}.

(** A facility for examples: indices [0, 1, ...] in the order asked for,
    whatever the class, and [-1] once [limit] of them are out. *)
Definition bounded_facility (limit : Z) (_ : ex_class) (_ : ex_args)
    (n : Z) : Z * Z :=
  if n <? limit then (n, n + 1) else (-1, n).

(** Three threads for examples: two that ask for the context index kept
    at address 8, one of them twice, and one that asks for the key index
    kept at address 9, which is already there. *)
Definition example_progs : list (list call) :=
  [[CallSSLCtx 8%N; CallSSLCtx 8%N]; [CallSSLCtx 8%N]; [CallRSA 9%N]].

Definition example_storage : gmap N object :=
  {[ 8%N := ObjInt (-1); 9%N := ObjInt 7 ]}.

(* ===================================================================== *)
(** * Certificates *)
(* ===================================================================== *)

(** Object identifiers, by their arcs. *)
Definition NID_commonName : list N := [2; 5; 4; 3]%N.
Definition NID_subject_alt_name : list N := [2; 5; 29; 17]%N.

(** Modelled from the spec: the parsed certificate handle ([X509] is an
    opaque library type in the header).  The spec speaks of "the
    certificate's subject name field", which may be lacking, of
    attributes found in it by kind, and of extensions located "by
    well-known object identifier". *)
Record ASN1_STRING : Set := {
  asn1_tag : N;
  asn1_data : string
}.

Record X509_NAME_ENTRY : Set := {
  entry_object : list N;
  entry_value : ASN1_STRING
}.

Record X509_EXTENSION : Set := {
  ext_object : list N;
  ext_critical : bool;
  ext_value : string
}.

Record X509 : Set := {
  subject_name : option (list X509_NAME_ENTRY);
  extensions : list X509_EXTENSION
}.

Definition is_commonName (e : X509_NAME_ENTRY) : bool :=
  bool_decide (entry_object e = NID_commonName).

Definition is_subject_alt_name (x : X509_EXTENSION) : bool :=
  bool_decide (ext_object x = NID_subject_alt_name).

Section Decoders.

(** The library's decoders, in the spec's terms: an attribute value is
    "decodable as text" or not; an extension decodes "as a list of
    general-name entries" unless "the entire extension is undecodable";
    an entry has a "textual form" unless it is malformed. *)
Variable asn1_to_text : ASN1_STRING → option string.
Variable GENERAL_NAME : Type.
Variable d2i_GENERAL_NAMES : string → option (list GENERAL_NAME).
Variable general_name_text : GENERAL_NAME → option string.

(** Modelled from the spec: the body of [SSLUtil::getCommonName], which
    the header only declares.  Spec, Contract A: "locate the
    certificate's subject name field, search it for the Common Name
    attribute, and if present and decodable as text, return its value;
    otherwise return absent."  The null [unique_ptr] is [None]. *)
Definition getCommonName (cert : X509) : option string :=
  match subject_name cert with
  | None => None
  | Some subject =>
      match List.find is_commonName subject with
      | None => None
      | Some entry => asn1_to_text (entry_value entry)
      end
  end.

(** Modelled from the spec: the body of [SSLUtil::getSubjectAltName],
    which the header only declares.  Spec, Contract B: "locate the
    Subject Alternative Name extension by its well-known object
    identifier; if absent, return absent.  If present, decode it as a
    list of general-name entries and return the textual form of each
    entry, preserving the extension's original ordering.  Malformed
    individual entries should be skipped rather than aborting the whole
    extraction, unless the entire extension is undecodable, in which
    case return absent." *)
Definition getSubjectAltName (cert : X509) : option (list string) :=
  match List.find is_subject_alt_name (extensions cert) with
  | None => None
  | Some ext =>
      match d2i_GENERAL_NAMES (ext_value ext) with
      | None => None
      | Some names => Some (omap general_name_text names)
      end
  end.

End Decoders.

(** Decoders for examples.  Text is what carries one of the string tags
    UTF8String (12), PrintableString (19) or IA5String (22); an extension
    value lists its entries one per line, and an entry with no colon
    after its kind is malformed. *)
Definition example_asn1_to_text (s : ASN1_STRING) : option string :=
  if bool_decide (asn1_tag s ∈ [12; 19; 22]%N)
  then Some (asn1_data s) else None.

Fixpoint split_lines (acc : string) (s : string) : list string :=
  match s with
  | EmptyString => [acc]
  | String c rest =>
      if Ascii.eqb c "010"%char
      then acc :: split_lines EmptyString rest
      else split_lines (acc +:+ String c EmptyString) rest
  end.

Definition example_d2i_GENERAL_NAMES (v : string) : option (list string) :=
  match v with
  | EmptyString => None
  | String c rest =>
      if Ascii.eqb c "S"%char
      then Some (match rest with
                 | EmptyString => []
                 | _ => split_lines EmptyString rest
                 end)
      else None
  end.

Fixpoint has_colon (s : string) : bool :=
  match s with
  | EmptyString => false
  | String c rest => Ascii.eqb c ":"%char || has_colon rest
  end.

Definition example_general_name_text (e : string) : option string :=
  if has_colon e then Some e else None.

(** A certificate for examples, with a Common Name and three alternative
    names of which the second is malformed, and one with neither subject
    nor extensions. *)
Definition example_cert : X509 :=
  {| subject_name :=
       Some [ {| entry_object := [2; 5; 4; 10]%N;
                 entry_value := {| asn1_tag := 19%N; asn1_data := "Acme" |} |};
              {| entry_object := NID_commonName;
                 entry_value := {| asn1_tag := 12%N;
                                   asn1_data := "example.com" |} |} ];
     extensions :=
       [ {| ext_object := [2; 5; 29; 15]%N; ext_critical := true;
            ext_value := "K" |};
         {| ext_object := NID_subject_alt_name; ext_critical := false;
            ext_value := String "S"
              ("DNS:a.com" +:+ String "010" ("bogus" +:+
               String "010" "DNS:b.com")) |} ] |}.

Definition example_bare_cert : X509 :=
  {| subject_name := None; extensions := [] |}.

(* ===================================================================== *)
(** * Where a thread stands inside a call *)
(* ===================================================================== *)

(** The three functions differ in the class and the callbacks they pass;
    their bodies have the same parts. *)
Definition call_args (c : call) : ex_args :=
  match c with
  | CallSSLCtx _ | CallRSA _ => ExArgs 0 nullptr CbNull CbNull CbNull
  | CallSSLSession _ =>
      ExArgs 0 nullptr CbNull CbExDataStdStringDup CbExDataStdStringFree
  end.

Definition store_part (p : addr) (r : Z) : cmd :=
  StoreInt p r (Unlock Return).

Definition alloc_part (cl : ex_class) (a : ex_args) (p : addr) : cmd :=
  GetExNewIndex cl a (λ r, store_part p r).

Definition check_part (cl : ex_class) (a : ex_args) (p : addr) : cmd :=
  LoadInt p (λ v, if v <? 0 then alloc_part cl a p else Unlock Return).

(** The points of control of a thread: between calls, about to take the
    lock, about to read the storage, about to ask the facility, about to
    write the answer, about to give the lock back. *)
Inductive pos : Set :=
| AtReturn
| AtEntry (c : call)
| AtCheck (c : call)
| AtAlloc (c : call)
| AtStore (c : call) (r : Z)
| AtUnlock.

Definition code_at (ps : pos) : cmd :=
  match ps with
  | AtReturn => Return
  | AtEntry c => call_code c
  | AtCheck c => check_part (call_class c) (call_args c) (call_ptr c)
  | AtAlloc c => alloc_part (call_class c) (call_args c) (call_ptr c)
  | AtStore c r => store_part (call_ptr c) r
  | AtUnlock => Unlock Return
  end.

(** Inside the critical section. *)
Definition in_cs (ps : pos) : bool :=
  match ps with
  | AtReturn | AtEntry _ => false
  | _ => true
  end.

Definition pos_calls (ps : pos) : list call :=
  match ps with
  | AtEntry c | AtCheck c | AtAlloc c | AtStore c _ => [c]
  | AtReturn | AtUnlock => []
  end.

Definition holds_int (m : gmap N object) (p : addr) : Prop :=
  ∃ v, m !! p = Some (ObjInt v).

Definition holds_negative (m : gmap N object) (p : addr) : Prop :=
  ∃ v, m !! p = Some (ObjInt v) ∧ v < 0.

Definition holds_index (m : gmap N object) (p : addr) : Prop :=
  ∃ v, m !! p = Some (ObjInt v) ∧ 0 ≤ v.

(** Past the check and before the write, the storage is still negative. *)
Definition pos_fact (m : gmap N object) (ps : pos) : Prop :=
  match ps with
  | AtAlloc c | AtStore c _ => holds_negative m (call_ptr c)
  | _ => True
  end.

Section Invariant.

Context {ex_state : Type}.

(** What is known of every call any thread makes. *)
Variable P : call → Prop.

Definition thread_ok (w : world ex_state) (i : nat) (t : thread) : Prop :=
  ∃ ps,
    cur t = code_at ps
    ∧ Forall P (pos_calls ps ++ todo t)
    ∧ (in_cs ps = true ↔ sIndexLock_ w = Some i)
    ∧ pos_fact (wmem w) ps.

(** The threads keep to the protocol of the lock, and every storage a
    call names holds an [int]. *)
Record inv (w : world ex_state) : Prop := {
  inv_threads : ∀ i t, threads w !! i = Some t → thread_ok w i t;
  inv_storage : ∀ c, P c → holds_int (wmem w) (call_ptr c)
}.

(** For a class [cl] whose callers all name the storage [p]: the facility
    has handed out at most one index for it, and an index it has handed
    out is in [p] or on its way there, in the hands of the thread that
    holds the lock. *)
Definition settled (p : addr) (r : Z) (w : world ex_state) : Prop :=
  wmem w !! p = Some (ObjInt r)
  ∨ ∃ i t, threads w !! i = Some t ∧ cur t = store_part p r.

Record counted (cl : ex_class) (p : addr) (w : world ex_state) : Prop := {
  counted_once : (grants cl (calls_log w) ≤ 1)%nat;
  counted_settled :
    ∀ e, e ∈ calls_log w → is_grant cl e = true →
         settled p (ev_result e) w
}.

End Invariant.

Section Transitions.

Context {ex_state : Type}.
Variable get_ex_new_index : ex_class → ex_args → ex_state → Z * ex_state.
Variable P : call → Prop.

(** The moves a thread makes when the protocol is kept. *)
Inductive trans (i : nat) (w : world ex_state) : world ex_state → Prop :=
| trans_idle : trans i w w
| trans_call t c rest :
    threads w !! i = Some t → cur t = code_at AtReturn → todo t = c :: rest →
    sIndexLock_ w ≠ Some i → Forall P (c :: rest) →
    trans i w (set_thread i (Thread (code_at (AtEntry c)) rest) w)
| trans_lock t c :
    threads w !! i = Some t → cur t = code_at (AtEntry c) →
    sIndexLock_ w = None → Forall P (c :: todo t) →
    trans i w (set_thread i (Thread (code_at (AtCheck c)) (todo t))
                 (set_lock (Some i) w))
| trans_check_negative t c v :
    threads w !! i = Some t → cur t = code_at (AtCheck c) →
    sIndexLock_ w = Some i → Forall P (c :: todo t) →
    wmem w !! call_ptr c = Some (ObjInt v) → v < 0 →
    trans i w (set_thread i (Thread (code_at (AtAlloc c)) (todo t)) w)
| trans_check_index t c v :
    threads w !! i = Some t → cur t = code_at (AtCheck c) →
    sIndexLock_ w = Some i → Forall P (c :: todo t) →
    wmem w !! call_ptr c = Some (ObjInt v) → 0 ≤ v →
    trans i w (set_thread i (Thread (code_at AtUnlock) (todo t)) w)
| trans_alloc t c r x :
    threads w !! i = Some t → cur t = code_at (AtAlloc c) →
    sIndexLock_ w = Some i → Forall P (c :: todo t) →
    holds_negative (wmem w) (call_ptr c) →
    get_ex_new_index (call_class c) (call_args c) (ex w) = (r, x) →
    trans i w (set_thread i (Thread (code_at (AtStore c r)) (todo t))
                 (set_ex x (ExEvent i (call_class c) r) w))
| trans_store t c r :
    threads w !! i = Some t → cur t = code_at (AtStore c r) →
    sIndexLock_ w = Some i → Forall P (c :: todo t) →
    holds_negative (wmem w) (call_ptr c) →
    trans i w (set_thread i (Thread (code_at AtUnlock) (todo t))
                 (set_mem (<[call_ptr c := ObjInt r]> (wmem w)) w))
| trans_unlock t :
    threads w !! i = Some t → cur t = code_at AtUnlock →
    sIndexLock_ w = Some i → Forall P (todo t) →
    trans i w (set_thread i (Thread (code_at AtReturn) (todo t))
                 (set_lock None w)).

End Transitions.

(** Thread [i], whose state was just written, moves again. *)
Ltac next_step :=
  unfold set_thread, set_lock, set_mem, set_ex;
  cbn [threads wmem sIndexLock_ ex calls_log];
  unfold step at 1; cbn [threads];
  rewrite list_lookup_insert_eq by (rewrite ?length_insert; assumption);
  cbn [cur todo instr sIndexLock_].

(** Every call for the class [cl] in these programs names the same
    storage [p]. *)
Definition single_storage (progs : list (list call)) (cl : ex_class)
    (p : addr) : Prop :=
  ∀ c, c ∈ concat progs → call_class c = cl → call_ptr c = p.

(** Every storage named in these programs holds an [int]. *)
Definition storage_ok (progs : list (list call)) (m : gmap N object) : Prop :=
  ∀ c, c ∈ concat progs → holds_int m (call_ptr c).

(* ===================================================================== *)
(** * Calls in sequence, work left, and what a run has done so far *)
(* ===================================================================== *)

(** A facility that never runs out: it hands out 0, 1, 2, ... *)
Definition unbounded_facility (_ : ex_class) (_ : ex_args) (n : N) : Z * N :=
  (Z.of_N n, N.succ n).

Section Sequence.

Context {ex_state : Type}.
Variable get_ex_new_index : ex_class → ex_args → ex_state → Z * ex_state.

(** Calls made one after the other, each by the thread named with it. *)
Fixpoint exec_calls (cs : list (nat * call)) (w : world ex_state)
    : outcome (world ex_state) :=
  match cs with
  | [] => Returned w
  | (i, c) :: rest =>
      match exec get_ex_new_index i (call_code c) w with
      | Returned w' => exec_calls rest w'
      | Thrown => Thrown
      | Undefined => Undefined
      end
  end.

End Sequence.

(** The instructions a thread has left on the longest path through its
    code.  The code of this header branches on the sign of what it
    loads, and not on what the facility answers. *)
Fixpoint cmd_steps (c : cmd) : nat :=
  match c with
  | Return => 0
  | LockGuard k | Unlock k | StoreInt _ _ k => S (cmd_steps k)
  | LoadInt _ k => S (Nat.max (cmd_steps (k (-1))) (cmd_steps (k 0)))
  | GetExNewIndex _ _ k => S (cmd_steps (k 0))
  end.

(** No call takes more than six steps, its start included. *)
Definition thread_work (t : thread) : nat :=
  (cmd_steps (cur t) + 6 * length (todo t))%nat.

Definition work {ex_state : Type} (w : world ex_state) : nat :=
  sum_list (thread_work <$> threads w).

(** Every thread has returned from its last call. *)
Definition thread_finished (t : thread) : bool :=
  match cur t, todo t with
  | Return, [] => true
  | _, _ => false
  end.

Definition finished {ex_state : Type} (w : world ex_state) : bool :=
  forallb thread_finished (threads w).

(** Whoever holds the lock is one of the threads. *)
Definition owner_ok {ex_state : Type} (w : world ex_state) : Prop :=
  ∀ i, sIndexLock_ w = Some i → is_Some (threads w !! i).

Section Provenance.

Context {ex_state : Type}.
Variable P : call → Prop.

Implicit Types (w : world ex_state).

(** Every storage a call may name holds an index. *)
Definition all_indexed w : Prop :=
  ∀ c, P c → holds_index (wmem w) (call_ptr c).

(** What a run leaves alone, and where what it writes comes from. *)
Definition answered w (r : Z) : Prop :=
  ∃ e, e ∈ calls_log w ∧ ev_result e = r.

Record provenance (m : gmap N object) w : Prop := {
  prov_frame : ∀ a, (∀ c, P c → call_ptr c ≠ a) → wmem w !! a = m !! a;
  prov_dom : dom (wmem w) = dom m;
  prov_value : ∀ a v, wmem w !! a = Some (ObjInt v) →
                      m !! a = Some (ObjInt v) ∨ answered w v;
  prov_pending : ∀ i t a r, threads w !! i = Some t →
                            cur t = store_part a r → answered w r
}.

End Provenance.

(** The thread's code is that of the call [c], at a point before the
    facility has been asked. *)
Definition before_alloc (c : call) (k : cmd) : Prop :=
  k = code_at (AtEntry c) ∨ k = code_at (AtCheck c) ∨ k = code_at (AtAlloc c).

Section History.

Context {ex_state : Type}.
Variables (progs : list (list call)) (cl : ex_class) (p : addr).

(** Every thread has made a first part of its program; none of the calls
    in that part is for the class [cl], unless it is the last of them
    and the thread is still in it, before the facility has been asked. *)
Definition tracked (w : world ex_state) : Prop :=
  ∀ i t prog,
    threads w !! i = Some t → progs !! i = Some prog →
    ∃ started,
      prog = started ++ todo t
      ∧ (Forall (λ c, call_class c ≠ cl) started
         ∨ ∃ s' c, started = s' ++ [c] ∧ call_class c = cl
                   ∧ before_alloc c (cur t)).

(** As long as the facility has not been asked for the class [cl], the
    storage [p] is negative and no call for [cl] has been completed. *)
Record history (w : world ex_state) : Prop := {
  hist_length : length (threads w) = length progs;
  hist_pending :
    ∀ i t r, threads w !! i = Some t → cur t = store_part p r →
             (1 ≤ invocations cl (calls_log w))%nat;
  hist_negative :
    invocations cl (calls_log w) = 0%nat → holds_negative (wmem w) p;
  hist_tracked : invocations cl (calls_log w) = 0%nat → tracked w
}.

(** Every answer the facility has given for [cl] is an index. *)
Definition all_granted (w : world ex_state) : Prop :=
  ∀ e, e ∈ calls_log w → ev_class e = cl → 0 ≤ ev_result e.

End History.

(** A schedule for examples: the three threads in turn, fourteen times. *)
Definition example_schedule : list nat :=
  concat (replicate 14 [0; 1; 2]%nat).

(* ===================================================================== *)
(** * Facility calls told apart by the storage they are made for *)
(* ===================================================================== *)

Section Attribution.

Context {ex_state : Type}.
Variable get_ex_new_index : ex_class → ex_args → ex_state → Z * ex_state.

(** Thread [i] is about to ask the facility and its code goes on to
    write the answer to the storage [p]: the answer it will get. *)
Definition asks_for (p : addr) (i : nat) (w : world ex_state) : option Z :=
  match threads w !! i with
  | Some t =>
      match cur t with
      | GetExNewIndex cl a k =>
          let r := (get_ex_new_index cl a (ex w)).1 in
          match k r with
          | StoreInt q _ _ => if decide (q = p) then Some r else None
          | _ => None
          end
      | _ => None
      end
  | None => None
  end.

(** Along a schedule: how often the facility is asked on behalf of the
    storage [p], and how often it answers with an index. *)
Fixpoint asked_at (p : addr) (sched : list nat) (w : world ex_state) : nat :=
  match sched with
  | [] => 0
  | i :: rest =>
      match step get_ex_new_index i w with
      | Some w' =>
          ((if asks_for p i w is Some _ then 1 else 0)
           + asked_at p rest w')%nat
      | None => 0%nat
      end
  end.

Fixpoint granted_at (p : addr) (sched : list nat) (w : world ex_state)
    : nat :=
  match sched with
  | [] => 0
  | i :: rest =>
      match step get_ex_new_index i w with
      | Some w' =>
          ((match asks_for p i w with
            | Some r => if (0 <=? r)%Z then 1 else 0
            | None => 0
            end)
           + granted_at p rest w')%nat
      | None => 0%nat
      end
  end.

End Attribution.

(** A facility for examples that fails the first time it is asked and
    hands out 1, 2, ... afterwards. *)
Definition flaky_facility (_ : ex_class) (_ : ex_args) (n : N) : Z * N :=
  if (n =? 0)%N then (-1, 1%N) else (Z.of_N n, N.succ n).

(** Two threads for examples that ask for the context index, each with a
    storage of its own, and two that share one. *)
Definition example_two_storages : list (list call) :=
  [[CallSSLCtx 8%N]; [CallSSLCtx 9%N]].

Definition example_two_negative : gmap N object :=
  {[ 8%N := ObjInt (-1); 9%N := ObjInt (-1) ]}.

Definition example_two_callers : list (list call) :=
  [[CallSSLCtx 8%N]; [CallSSLCtx 8%N]].

Definition example_one_negative : gmap N object :=
  {[ 8%N := ObjInt (-1) ]}.

(* ===================================================================== *)
(** * Properties of the enums, the exception and the classifier *)
(* ===================================================================== *)

Lemma SSLResumeEnum_value_range (e : SSLResumeEnum) :
  0 ≤ SSLResumeEnum_value e ≤ uint8_max.
Proof. unfold uint8_max. destruct e; simpl; lia. Qed.

Lemma SSLResumeEnum_roundtrip (e : SSLResumeEnum) :
  SSLResumeEnum_of_value (SSLResumeEnum_value e) = Some e.
Proof. destruct e; reflexivity. Qed.

Lemma SSLResumeEnum_value_inj (a b : SSLResumeEnum) :
  SSLResumeEnum_value a = SSLResumeEnum_value b → a = b.
Proof.
  intros Hab.
  assert (Some a = Some b) as Heq
    by (rewrite <- !SSLResumeEnum_roundtrip; now rewrite Hab).
  now injection Heq.
Qed.

(** C2. The resume-state enum is encoded as HANDSHAKE = 0,
    RESUME_SESSION_ID = 1, NA = 2, RESUME_TICKET = 3: NA sits between the
    two resumption kinds although it is declared last.  The four codes
    fit the underlying [uint8_t], and reading a code back gives the
    enumerator it came from, so no two enumerators share a code. *)
Theorem resume_enum_encoding :
  SSLResumeEnum_value HANDSHAKE = 0
  ∧ SSLResumeEnum_value RESUME_SESSION_ID = 1
  ∧ SSLResumeEnum_value NA = 2
  ∧ SSLResumeEnum_value RESUME_TICKET = 3
  ∧ SSLResumeEnum_value RESUME_SESSION_ID < SSLResumeEnum_value NA
      < SSLResumeEnum_value RESUME_TICKET
  ∧ (∀ e, 0 ≤ SSLResumeEnum_value e ≤ uint8_max)
  ∧ (∀ e, SSLResumeEnum_of_value (SSLResumeEnum_value e) = Some e)
  ∧ (∀ a b, SSLResumeEnum_value a = SSLResumeEnum_value b → a = b).
Proof.
  repeat split; try reflexivity.
  - apply SSLResumeEnum_value_range.
  - apply SSLResumeEnum_value_range.
  - apply SSLResumeEnum_roundtrip.
  - apply SSLResumeEnum_value_inj.
Qed.

Lemma getResumeState_not_reused (s : AsyncSSLSocket) :
  getSSLSessionReused s = false → getResumeState s = HANDSHAKE.
Proof. unfold getResumeState. now intros ->. Qed.

Lemma getResumeState_reused (s : AsyncSSLSocket) :
  getSSLSessionReused s = true →
  getResumeState s =
    if sessionIDResumed s then RESUME_SESSION_ID else RESUME_TICKET.
Proof. unfold getResumeState. now intros ->. Qed.

(** C3. [getResumeState] is a total function of the socket's two flags:
    HANDSHAKE when the session was not reused, whatever the second flag;
    RESUME_SESSION_ID when both are set; RESUME_TICKET when the session
    was reused but not by session id.  It never answers NA. *)
Theorem getResumeState_cases :
  (∀ idResumed,
     getResumeState {| getSSLSessionReused := false;
                       sessionIDResumed := idResumed |} = HANDSHAKE)
  ∧ getResumeState {| getSSLSessionReused := true;
                      sessionIDResumed := true |} = RESUME_SESSION_ID
  ∧ getResumeState {| getSSLSessionReused := true;
                      sessionIDResumed := false |} = RESUME_TICKET
  ∧ (∀ s, getResumeState s ≠ NA).
Proof.
  split; [|split; [|split]].
  - intros idResumed. now apply getResumeState_not_reused.
  - now rewrite getResumeState_reused.
  - now rewrite getResumeState_reused.
  - intros [reused idResumed]. unfold getResumeState; simpl.
    destruct reused, idResumed; discriminate.
Qed.

Module SSLExceptionFacts.
Import SSLException.

Lemma call_keeps_object (m : method) (e : t) : snd (call m e) = e.
Proof. now destruct m. Qed.

Lemma after_calls_same (ms : list method) (e : t) : after_calls ms e = e.
Proof.
  revert e. induction ms as [|m ms IH]; intros e; simpl.
  - reflexivity.
  - now rewrite call_keeps_object.
Qed.

Lemma call_answer (m : method) (e : t) :
  fst (call m e) =
    match m with
    | GetError => AError (error_ e)
    | GetLatency => ALatency (latency_ e)
    | GetBytesRead => ABytes (bytesRead_ e)
    end.
Proof. now destruct m. Qed.

(** C9. An [SSLException] built from a category, a latency and a byte
    count answers exactly these three through [getError], [getLatency]
    and [getBytesRead], and goes on doing so after any sequence of calls
    of its accessors: these leave the object as it was built. *)
Theorem accessors_report_construction
    (msg : string) (error : SSLErrorEnum) (latency bytesRead : Z)
    (ms : list method) :
  let e := after_calls ms (make msg error latency bytesRead) in
  getError e = error
  ∧ getLatency e = latency
  ∧ getBytesRead e = bytesRead
  ∧ e = make msg error latency bytesRead
  ∧ fst (call GetError e) = AError error
  ∧ fst (call GetLatency e) = ALatency latency
  ∧ fst (call GetBytesRead e) = ABytes bytesRead.
Proof.
  intros e. subst e. rewrite after_calls_same.
  rewrite !call_answer. unfold getError, getLatency, getBytesRead, make.
  simpl. repeat split.
Qed.

Example timeout_500ms_1024 :
  let e := make "timeout" TIMEOUT 500 1024 in
  (getError e, getLatency e, getBytesRead e) = (TIMEOUT, 500, 1024).
Proof. reflexivity. Qed.

End SSLExceptionFacts.

(* ===================================================================== *)
(** * Properties of the ex_data callbacks *)
(* ===================================================================== *)

Lemma bump_allocator_fresh (h : gmap N object) :
  h !! bump_allocator h = None ∧ bump_allocator h ≠ nullptr.
Proof.
  unfold bump_allocator.
  pose proof (is_fresh ({[nullptr]} ∪ dom h)) as Hfresh.
  split.
  - apply not_elem_of_dom. set_solver.
  - set_solver.
Qed.

Section CallbackFacts.

Variable operator_new : gmap N object → addr.

(** The unnamed arguments of the callbacks play no part. *)
Variables (to from parent ad argp : addr) (idx argl : Z).

Local Abbreviation dup := (exDataStdStringDup operator_new to from).
Local Abbreviation free := (exDataStdStringFree parent).

Lemma dup_null (ptr : addr) (st : mstate) :
  mem st !! ptr = Some (ObjPtr nullptr) →
  dup ptr idx argl argp st = Some (1, emit (EvRead ptr) st).
Proof.
  intros Hptr. unfold exDataStdStringDup, mbind, M_bind, load_ptr.
  rewrite Hptr. rewrite bool_decide_eq_false_2 by (intros H; now apply H).
  reflexivity.
Qed.

Lemma dup_string (ptr p : addr) (s : string) (st : mstate) :
  mem st !! ptr = Some (ObjPtr p) →
  p ≠ nullptr →
  mem st !! p = Some (ObjString s) →
  mem st !! operator_new (mem st) = None →
  dup ptr idx argl argp st =
    Some (1, {| mem := <[ptr := ObjPtr (operator_new (mem st))]>
                         (<[operator_new (mem st) := ObjString s]> (mem st));
                trace := trace st ++
                  [EvRead ptr; EvRead p; EvNew (operator_new (mem st)) s;
                   EvWrite ptr (ObjPtr (operator_new (mem st)))] |}).
Proof.
  intros Hptr Hp Hs Hfresh.
  unfold exDataStdStringDup, mbind, M_bind, load_ptr.
  rewrite Hptr. rewrite bool_decide_eq_true_2 by exact Hp.
  unfold load_string, new_string, store_ptr, emit; simpl.
  rewrite Hs; simpl.
  assert (operator_new (mem st) ≠ ptr) as Hne by congruence.
  rewrite lookup_insert_ne by exact Hne. rewrite Hptr.
  unfold mret, M_ret. rewrite <- !app_assoc. reflexivity.
Qed.

(** Whatever the callback is given, it has one return value. *)
Lemma dup_returns_1 (ptr : addr) (st st' : mstate) (r : Z) :
  dup ptr idx argl argp st = Some (r, st') → r = 1.
Proof.
  unfold exDataStdStringDup, mbind, M_bind, load_ptr.
  destruct (mem st !! ptr) as [[s|p|n]|]; try discriminate.
  case_bool_decide as Hp.
  - unfold load_string, new_string, store_ptr, emit; simpl.
    destruct (mem st !! p) as [[s| |]|]; try discriminate; simpl.
    destruct (<[operator_new (mem st) := ObjString s]> (mem st) !! ptr)
      as [[| |]|]; try discriminate.
    unfold mret, M_ret. now intros [= <- _].
  - unfold mret, M_ret. now intros [= <- _].
Qed.

Lemma free_null (st : mstate) :
  free nullptr ad idx argl argp st = Some (tt, st).
Proof.
  unfold exDataStdStringFree.
  rewrite bool_decide_eq_false_2 by (intros H; now apply H).
  reflexivity.
Qed.

Lemma free_string (p : addr) (s : string) (st : mstate) :
  p ≠ nullptr →
  mem st !! p = Some (ObjString s) →
  free p ad idx argl argp st =
    Some (tt, {| mem := delete p (mem st);
                 trace := trace st ++ [EvDelete p] |}).
Proof.
  intros Hp Hs. unfold exDataStdStringFree.
  rewrite bool_decide_eq_true_2 by exact Hp.
  unfold delete_string. now rewrite Hs.
Qed.

(** Freeing what has been freed is not defined: the address no longer
    holds a string. *)
Lemma free_twice_undefined (p : addr) (st : mstate) :
  p ≠ nullptr →
  free p ad idx argl argp
    {| mem := delete p (mem st); trace := trace st ++ [EvDelete p] |} = None.
Proof.
  intros Hp. unfold exDataStdStringFree.
  rewrite bool_decide_eq_true_2 by exact Hp.
  unfold delete_string; simpl. now rewrite lookup_delete_eq.
Qed.

Lemma free_each_owned (ptrs : list addr) (st : mstate) :
  NoDup (owned ptrs) →
  (∀ p, p ∈ owned ptrs → ∃ s, mem st !! p = Some (ObjString s)) →
  free_each parent ad idx argl argp ptrs st =
    Some (tt, {| mem := release_all ptrs (mem st);
                 trace := trace st ++ (EvDelete <$> owned ptrs) |}).
Proof.
  revert st. induction ptrs as [|p ptrs IH]; intros st Hnd Hlive.
  - unfold release_all, owned; simpl. rewrite app_nil_r. now destruct st.
  - simpl. unfold mbind, M_bind.
    destruct (decide (p = nullptr)) as [->|Hp].
    + rewrite free_null.
      unfold release_all, owned in *.
      rewrite filter_cons_False in * by (intros H; now apply H).
      now apply IH.
    + unfold release_all, owned in *.
      rewrite filter_cons_True in * by exact Hp.
      apply NoDup_cons in Hnd as [Hnotin Hnd].
      destruct (Hlive p) as [s Hs]; [left|].
      rewrite (free_string p s) by assumption.
      rewrite IH; simpl.
      * rewrite <- app_assoc. reflexivity.
      * exact Hnd.
      * intros p' Hp'. destruct (Hlive p') as [s' Hs']; [now right|].
        exists s'. rewrite lookup_delete_ne; [exact Hs'|].
        intros ->. now apply Hnotin.
Qed.

Lemma release_all_lookup (ptrs : list addr) (h : gmap N object) (a : addr) :
  release_all ptrs h !! a = if decide (a ∈ owned ptrs) then None else h !! a.
Proof.
  unfold release_all. generalize (owned ptrs) as l. intros l.
  revert h. induction l as [|p l IH]; intros h; cbn [foldl].
  - rewrite decide_False by apply not_elem_of_nil. reflexivity.
  - rewrite IH. destruct (decide (a = p)) as [->|Hne].
    + rewrite lookup_delete_eq.
      destruct (decide (p ∈ p :: l)) as [_|H]; [now case_decide|].
      exfalso. apply H. left.
    + rewrite lookup_delete_ne by congruence.
      case_decide as H1; case_decide as H2; try reflexivity.
      * exfalso. apply H2. now right.
      * exfalso. apply elem_of_cons in H2 as [?|?]; [congruence|now apply H1].
Qed.

Lemma deletions_app (p : addr) (tr1 tr2 : list mem_event) :
  deletions p (tr1 ++ tr2) = (deletions p tr1 + deletions p tr2)%nat.
Proof. unfold deletions. now rewrite filter_app, length_app. Qed.

Lemma deletions_of_owned (p : addr) (l : list addr) :
  NoDup l →
  deletions p (EvDelete <$> l) = if decide (p ∈ l) then 1%nat else 0%nat.
Proof.
  unfold deletions. induction l as [|q l IH]; intros Hnd; cbn [fmap list_fmap].
  - rewrite decide_False by apply not_elem_of_nil. reflexivity.
  - apply NoDup_cons in Hnd as [Hnotin Hnd]. specialize (IH Hnd).
    destruct (decide (q = p)) as [->|Hne].
    + rewrite filter_cons_True by reflexivity. cbn [length]. rewrite IH.
      destruct (decide (p ∈ l)) as [H|_]; [now apply Hnotin in H|].
      destruct (decide (p ∈ p :: l)) as [_|H]; [reflexivity|].
      exfalso. apply H. left.
    + rewrite filter_cons_False by congruence. rewrite IH.
      case_decide as H1; case_decide as H2; try reflexivity.
      * exfalso. apply H2. now right.
      * exfalso. apply elem_of_cons in H2 as [?|?]; [congruence|now apply H1].
Qed.

(** [operator new] gives an address that is not null and not in use. *)
Hypothesis operator_new_fresh :
  ∀ h, h !! operator_new h = None ∧ operator_new h ≠ nullptr.

(** C4. Given a slot word that holds a non-null pointer to a string, the
    duplicate callback returns with the word pointing at a newly
    allocated string of the same contents; the source string and every
    other object are as before, and assigning to either string leaves
    the other one as it was.  Given a slot word that holds null, it
    returns with the heap unchanged, so the word still holds null. *)
Theorem dup_copies_string (ptr : addr) (st : mstate) :
  (∀ p s,
     mem st !! ptr = Some (ObjPtr p) →
     p ≠ nullptr →
     mem st !! p = Some (ObjString s) →
     ∃ q st',
       dup ptr idx argl argp st = Some (1, st')
       ∧ mem st !! q = None ∧ q ≠ nullptr ∧ q ≠ p
       ∧ mem st' !! ptr = Some (ObjPtr q)
       ∧ mem st' !! q = Some (ObjString s)
       ∧ mem st' !! p = Some (ObjString s)
       ∧ (∀ a, a ≠ ptr → a ≠ q → mem st' !! a = mem st !! a)
       ∧ (∀ s', ∃ st'',
            assign_string q s' st' = Some (tt, st'')
            ∧ mem st'' !! q = Some (ObjString s')
            ∧ mem st'' !! p = Some (ObjString s))
       ∧ (∀ s', ∃ st'',
            assign_string p s' st' = Some (tt, st'')
            ∧ mem st'' !! p = Some (ObjString s')
            ∧ mem st'' !! q = Some (ObjString s)))
  ∧ (mem st !! ptr = Some (ObjPtr nullptr) →
     ∃ st',
       dup ptr idx argl argp st = Some (1, st')
       ∧ mem st' = mem st
       ∧ mem st' !! ptr = Some (ObjPtr nullptr)).
Proof.
  split.
  - intros p s Hptr Hp Hs.
    destruct (operator_new_fresh (mem st)) as [Hfresh Hnonnull].
    set (q := operator_new (mem st)) in *.
    assert (q ≠ p) as Hqp by congruence.
    assert (q ≠ ptr) as Hqptr by congruence.
    assert (p ≠ ptr) as Hpptr by congruence.
    eexists q, _. split; [now apply (dup_string ptr p s)|].
    fold q. cbn [mem].
    split; [exact Hfresh|]. split; [exact Hnonnull|]. split; [exact Hqp|].
    split; [apply lookup_insert_eq|].
    split; [rewrite lookup_insert_ne by congruence; apply lookup_insert_eq|].
    split; [now rewrite !lookup_insert_ne by congruence|].
    split; [intros a Ha1 Ha2; now rewrite !lookup_insert_ne by congruence|].
    split; intros s'; unfold assign_string; cbn [mem trace].
    + rewrite lookup_insert_ne by congruence. rewrite lookup_insert_eq.
      eexists. split; [reflexivity|]. cbn [mem].
      split; [apply lookup_insert_eq|].
      now rewrite !lookup_insert_ne by congruence.
    + rewrite !lookup_insert_ne by congruence. rewrite Hs.
      eexists. split; [reflexivity|]. cbn [mem].
      split; [apply lookup_insert_eq|].
      rewrite !lookup_insert_ne by congruence. apply lookup_insert_eq.
  - intros Hptr. eexists. split; [now apply dup_null|].
    split; [reflexivity|exact Hptr].
Qed.

(** C5. The free callback leaves everything as it is when the slot value
    is null.  When the value points to a string, it deletes that string,
    once, and touches nothing else; a null free after it is again a
    no-op.  Run over the successive values of a slot, each null or a
    string of its own, it deletes every string exactly once and has
    defined behaviour throughout. *)
Theorem free_releases_once (st : mstate) :
  free nullptr ad idx argl argp st = Some (tt, st)
  ∧ (∀ p s,
       p ≠ nullptr →
       mem st !! p = Some (ObjString s) →
       ∃ st',
         free p ad idx argl argp st = Some (tt, st')
         ∧ mem st' !! p = None
         ∧ (∀ a, a ≠ p → mem st' !! a = mem st !! a)
         ∧ deletions p (trace st') = S (deletions p (trace st))
         ∧ free nullptr ad idx argl argp st' = Some (tt, st'))
  ∧ (∀ ptrs,
       NoDup (owned ptrs) →
       (∀ p, p ∈ owned ptrs → ∃ s, mem st !! p = Some (ObjString s)) →
       ∃ st',
         free_each parent ad idx argl argp ptrs st = Some (tt, st')
         ∧ (∀ a, mem st' !! a =
                   if decide (a ∈ owned ptrs) then None else mem st !! a)
         ∧ (∀ p, deletions p (trace st') =
                   (deletions p (trace st) +
                    if decide (p ∈ owned ptrs) then 1 else 0)%nat)).
Proof.
  split; [apply free_null|]. split.
  - intros p s Hp Hs. eexists. split; [now apply (free_string p s)|].
    cbn [mem trace]. split; [apply lookup_delete_eq|].
    split; [intros a Ha; now apply lookup_delete_ne|].
    split; [|apply free_null].
    rewrite deletions_app. unfold deletions at 2.
    rewrite filter_cons_True by reflexivity. cbn. lia.
  - intros ptrs Hnd Hlive. eexists.
    split; [now apply free_each_owned|]. cbn [mem trace].
    split; [intros a; apply release_all_lookup|].
    intros p. rewrite deletions_app. now rewrite deletions_of_owned.
Qed.

(** C10. Whenever the duplicate callback returns, it returns 1; it does
    return, with 1, on every slot word that holds null or a pointer to a
    string.  On null it only reads the word: the heap is as before and
    the trace gains that one read and no write. *)
Theorem dup_always_returns_1 (ptr : addr) (st : mstate) :
  (∀ r st', dup ptr idx argl argp st = Some (r, st') → r = 1)
  ∧ (∀ p,
       mem st !! ptr = Some (ObjPtr p) →
       p = nullptr ∨ (∃ s, mem st !! p = Some (ObjString s)) →
       ∃ st', dup ptr idx argl argp st = Some (1, st'))
  ∧ (mem st !! ptr = Some (ObjPtr nullptr) →
     ∃ st',
       dup ptr idx argl argp st = Some (1, st')
       ∧ mem st' = mem st
       ∧ trace st' = trace st ++ [EvRead ptr]
       ∧ ∀ a o, EvWrite a o ∉ drop (length (trace st)) (trace st')).
Proof.
  split; [intros r st'; apply dup_returns_1|]. split.
  - intros p Hptr [->|[s Hs]].
    + eexists. now apply dup_null.
    + destruct (decide (p = nullptr)) as [->|Hp].
      * eexists. now apply dup_null.
      * eexists. apply (dup_string ptr p s); try assumption.
        apply operator_new_fresh.
  - intros Hptr. eexists. split; [now apply dup_null|].
    cbn [emit mem trace]. split; [reflexivity|]. split; [reflexivity|].
    intros a o. rewrite drop_app_length.
    intros H. apply list_elem_of_singleton in H. discriminate.
Qed.

End CallbackFacts.

Lemma dup_copies_string_witness :
  (∃ q st',
     exDataStdStringDup bump_allocator 0%N 0%N 1%N 0 0 0%N example_state
       = Some (1, st')
     ∧ q ≠ 2%N
     ∧ mem st' !! 1%N = Some (ObjPtr q)
     ∧ mem st' !! q = Some (ObjString "abc")
     ∧ mem st' !! 2%N = Some (ObjString "abc"))
  ∧ (∃ st',
       exDataStdStringDup bump_allocator 0%N 0%N 4%N 0 0 0%N example_state
         = Some (1, st')
       ∧ mem st' !! 4%N = Some (ObjPtr nullptr)).
Proof.
  split.
  - destruct (dup_copies_string bump_allocator 0%N 0%N 0%N 0 0
                bump_allocator_fresh 1%N example_state) as [Hstr _].
    destruct (Hstr 2%N "abc") as (q & st' & Hrun & _ & _ & Hq & H1 & H2 & H3 & _).
    + reflexivity.
    + discriminate.
    + reflexivity.
    + exists q, st'. repeat split; assumption.
  - destruct (dup_copies_string bump_allocator 0%N 0%N 0%N 0 0
                bump_allocator_fresh 4%N example_state) as [_ Hnull].
    destruct Hnull as (st' & Hrun & _ & H4).
    + reflexivity.
    + exists st'. split; assumption.
Defined.

Lemma free_releases_once_witness :
  ∃ st',
    free_each 0%N 0%N 0 0 0%N [2%N; nullptr; 3%N; nullptr; nullptr]
      example_state = Some (tt, st')
    ∧ mem st' !! 2%N = None
    ∧ mem st' !! 3%N = None
    ∧ mem st' !! 1%N = Some (ObjPtr 2%N)
    ∧ deletions 2%N (trace st') = 1%nat
    ∧ deletions 3%N (trace st') = 1%nat.
Proof.
  destruct (free_releases_once 0%N 0%N 0%N 0 0 example_state)
    as (_ & _ & Hseq).
  destruct (Hseq [2%N; nullptr; 3%N; nullptr; nullptr])
    as (st' & Hrun & Hmem & Hdel).
  - apply (bool_decide_unpack _). vm_compute. exact I.
  - intros p Hp. vm_compute in Hp.
    apply elem_of_cons in Hp as [->|Hp]; [now exists "abc"%string|].
    apply elem_of_cons in Hp as [->|Hp]; [now exists "de"%string|].
    now apply elem_of_nil in Hp.
  - exists st'. split; [exact Hrun|].
    rewrite !Hmem, !Hdel. repeat split.
Defined.

Lemma dup_always_returns_1_witness :
  (∃ st',
     exDataStdStringDup bump_allocator 0%N 0%N 1%N 0 0 0%N example_state
       = Some (1, st'))
  ∧ (∃ st',
       exDataStdStringDup bump_allocator 0%N 0%N 4%N 0 0 0%N example_state
         = Some (1, st')
       ∧ mem st' = example_heap
       ∧ trace st' = [EvRead 4%N]).
Proof.
  destruct (dup_always_returns_1 bump_allocator 0%N 0%N 0%N 0 0
              bump_allocator_fresh 1%N example_state) as (_ & Hwf & _).
  destruct (dup_always_returns_1 bump_allocator 0%N 0%N 0%N 0 0
              bump_allocator_fresh 4%N example_state) as (_ & _ & Hnull).
  split.
  - apply (Hwf 2%N); [reflexivity|]. right. now exists "abc"%string.
  - destruct Hnull as (st' & Hrun & Hmem & Htr & _); [reflexivity|].
    exists st'. repeat split; assumption.
Defined.

(* ===================================================================== *)
(** * Properties of the index acquisition functions *)
(* ===================================================================== *)

Lemma call_code_parts (c : call) :
  call_code c = LockGuard (check_part (call_class c) (call_args c) (call_ptr c)).
Proof. destruct c; reflexivity. Qed.

Lemma code_at_store (ps : pos) (p : addr) (r : Z) :
  code_at ps = store_part p r → ∃ c, ps = AtStore c r ∧ call_ptr c = p.
Proof.
  destruct ps as [|c|c|c|c r'|]; simpl; try discriminate.
  - rewrite call_code_parts. discriminate.
  - unfold store_part. intros [= <- <-]. now exists c.
Qed.

Lemma grants_snoc (cl : ex_class) (log : list ex_event) (e : ex_event) :
  grants cl (log ++ [e]) =
    (grants cl log + if is_grant cl e then 1 else 0)%nat.
Proof.
  unfold grants. rewrite filter_app, length_app. f_equal.
  destruct (is_grant cl e) eqn:He.
  - now rewrite filter_cons_True.
  - rewrite filter_cons_False; [reflexivity|]. now rewrite He.
Qed.

Lemma invocations_snoc (cl : ex_class) (log : list ex_event) (e : ex_event) :
  invocations cl (log ++ [e]) =
    (invocations cl log + if is_invocation cl e then 1 else 0)%nat.
Proof.
  unfold invocations. rewrite filter_app, length_app. f_equal.
  destruct (is_invocation cl e) eqn:He.
  - now rewrite filter_cons_True.
  - rewrite filter_cons_False; [reflexivity|]. now rewrite He.
Qed.

Lemma grants_le_invocations (cl : ex_class) (log : list ex_event) :
  (grants cl log ≤ invocations cl log)%nat.
Proof.
  induction log as [|e log IH] using rev_ind; [reflexivity|].
  rewrite grants_snoc, invocations_snoc.
  unfold is_grant, is_invocation.
  destruct (bool_decide (ev_class e = cl)); simpl; [|lia].
  destruct (0 <=? ev_result e); lia.
Qed.

Lemma is_grant_true (cl : ex_class) (e : ex_event) :
  is_grant cl e = true → ev_class e = cl ∧ 0 ≤ ev_result e.
Proof.
  unfold is_grant. intros H. apply andb_true_iff in H as [Hcl Hr].
  split; [now apply bool_decide_eq_true_1 in Hcl|now apply Z.leb_le].
Qed.

Lemma grant_counts (cl : ex_class) (log : list ex_event) (e : ex_event) :
  e ∈ log → is_grant cl e = true → (1 ≤ grants cl log)%nat.
Proof.
  intros He Hg. unfold grants.
  assert (e ∈ filter (λ e, is_grant cl e = true) log) as Hin
    by now apply list_elem_of_filter.
  destruct (filter (λ e, is_grant cl e = true) log); simpl; [|lia].
  now apply elem_of_nil in Hin.
Qed.

Lemma negative_not_index (m : gmap N object) (p : addr) :
  holds_negative m p → holds_index m p → False.
Proof.
  intros (v & Hv & Hneg) (v' & Hv' & Hpos).
  rewrite Hv in Hv'. injection Hv' as ->. lia.
Qed.

Section RegistryFacts.

Context {ex_state : Type}.
Variable get_ex_new_index : ex_class → ex_args → ex_state → Z * ex_state.
Variable P : call → Prop.

Implicit Types (w : world ex_state) (t : thread) (i j : nat).

Lemma lookup_set_thread_eq w i t t0 :
  threads w !! i = Some t0 → threads (set_thread i t w) !! i = Some t.
Proof.
  intros H. unfold set_thread; simpl. apply list_lookup_insert_eq.
  now apply lookup_lt_Some in H.
Qed.

Lemma lookup_set_thread_ne w i j t :
  i ≠ j → threads (set_thread i t w) !! j = threads w !! j.
Proof. intros H. unfold set_thread; simpl. now apply list_lookup_insert_ne. Qed.

Local Abbreviation moves := (trans get_ex_new_index P).

Lemma step_trans w i :
  inv P w → ∃ w', step get_ex_new_index i w = Some w' ∧ moves i w w'.
Proof.
  intros [Hthreads Hstorage]. unfold step.
  destruct (threads w !! i) as [t|] eqn:Ht; [|eexists; split; [reflexivity|constructor]].
  destruct (Hthreads i t Ht) as (ps & Hcur & HP & Hcs & Hfact).
  rewrite Hcur.
  destruct ps as [|c|c|c|c r|]; simpl in Hcs, Hfact, HP.
  - simpl. destruct (todo t) as [|c rest] eqn:Htodo.
    + eexists; split; [reflexivity|constructor].
    + eexists; split; [reflexivity|].
      eapply trans_call; eauto; try (now rewrite <- Htodo).
      intros Hl. apply Hcs in Hl. discriminate.
  - simpl. rewrite call_code_parts. simpl.
    destruct (sIndexLock_ w) as [j|] eqn:Hlock.
    + destruct (decide (j = i)) as [->|Hne].
      * exfalso. assert (false = true) by now apply Hcs. discriminate.
      * eexists; split; [|constructor]. f_equal.
        rewrite <- call_code_parts.
        change (call_code c) with (code_at (AtEntry c)). rewrite <- Hcur.
        unfold set_thread. destruct w; simpl in *. f_equal.
        rewrite list_insert_id; [reflexivity|]. now destruct t.
    + eexists; split; [reflexivity|].
      eapply trans_lock; eauto.
  - assert (sIndexLock_ w = Some i) as Hlock by now apply Hcs.
    pose proof HP as HP'. apply Forall_cons in HP' as [HPc _].
    destruct (Hstorage c HPc) as [v Hv].
    simpl. rewrite Hv.
    destruct (Z.ltb_spec v 0) as [Hneg|Hpos].
    + eexists; split; [reflexivity|]. eapply trans_check_negative; eauto.
    + eexists; split; [reflexivity|]. eapply trans_check_index; eauto.
  - assert (sIndexLock_ w = Some i) as Hlock by now apply Hcs.
    simpl.
    destruct (get_ex_new_index (call_class c) (call_args c) (ex w)) as [r x] eqn:Hget.
    eexists; split; [reflexivity|]. eapply trans_alloc; eauto.
  - assert (sIndexLock_ w = Some i) as Hlock by now apply Hcs.
    destruct Hfact as (v & Hv & Hneg).
    simpl. rewrite Hv.
    eexists; split; [reflexivity|]. eapply trans_store; eauto. now exists v.
  - assert (sIndexLock_ w = Some i) as Hlock by now apply Hcs.
    simpl. rewrite decide_True by exact Hlock.
    eexists; split; [reflexivity|]. eapply trans_unlock; eauto.
Qed.


Lemma in_critical_section_at (ps : pos) :
  in_critical_section (code_at ps) = in_cs ps.
Proof. destruct ps as [|c|c|c|c r|]; try reflexivity. now destruct c. Qed.

(** Whoever is in the critical section holds the lock, so at most one
    thread is. *)
Lemma critical_section_holds_lock w i t :
  inv P w → threads w !! i = Some t →
  in_critical_section (cur t) = true → sIndexLock_ w = Some i.
Proof.
  intros [Hthreads _] Ht Hcs.
  destruct (Hthreads i t Ht) as (ps & Hcur & _ & Hlock & _).
  apply Hlock. now rewrite <- in_critical_section_at, <- Hcur.
Qed.

Lemma thread_ok_frame w w' j t :
  thread_ok P w j t →
  (sIndexLock_ w' = Some j ↔ sIndexLock_ w = Some j) →
  (sIndexLock_ w = Some j → wmem w' = wmem w) →
  thread_ok P w' j t.
Proof.
  intros (ps & Hcur & HP & Hcs & Hfact) Hlock Hmem.
  exists ps. split; [exact Hcur|]. split; [exact HP|].
  split; [now rewrite Hlock|].
  destruct ps; simpl in *; try exact I;
    (rewrite Hmem; [exact Hfact|now apply Hcs]).
Qed.

Lemma pending_holds_lock w j t p r :
  inv P w → threads w !! j = Some t → cur t = store_part p r →
  sIndexLock_ w = Some j.
Proof.
  intros [Hthreads _] Ht Hcur.
  destruct (Hthreads j t Ht) as (ps & Hcur' & _ & Hcs & _).
  rewrite Hcur in Hcur'. symmetry in Hcur'.
  apply code_at_store in Hcur' as (c & -> & _). now apply Hcs.
Qed.

Lemma inv_update w w1 i t1 :
  inv P w →
  threads w1 = threads w →
  thread_ok P w1 i t1 →
  (∀ j, j ≠ i → sIndexLock_ w1 = Some j ↔ sIndexLock_ w = Some j) →
  (∀ j, j ≠ i → sIndexLock_ w = Some j → wmem w1 = wmem w) →
  (∀ c, P c → holds_int (wmem w1) (call_ptr c)) →
  inv P (set_thread i t1 w1).
Proof.
  intros [Hthreads _] Hth Hnew Hlock Hmem Hstorage.
  split; [|exact Hstorage].
  intros j t Hj. destruct (decide (j = i)) as [->|Hne].
  - unfold set_thread in Hj; simpl in Hj.
    apply list_lookup_insert_Some in Hj as [(_ & <- & _)|(Hii & _)];
      [exact Hnew|congruence].
  - rewrite lookup_set_thread_ne in Hj by congruence. rewrite Hth in Hj.
    apply (thread_ok_frame w); [now apply Hthreads|now apply Hlock|now apply Hmem].
Qed.

Lemma trans_inv w w' i : inv P w → moves i w w' → inv P w'.
Proof.
  intros Hinv Htr. pose proof Hinv as [Hthreads Hstorage].
  destruct Htr as [|t c rest Ht Hcur Htodo Hlock HP
                   |t c Ht Hcur Hlock HP
                   |t c v Ht Hcur Hlock HP Hv Hneg
                   |t c v Ht Hcur Hlock HP Hv Hpos
                   |t c r x Ht Hcur Hlock HP Hneg Hget
                   |t c r Ht Hcur Hlock HP Hneg
                   |t Ht Hcur Hlock HP].
  - exact Hinv.
  - apply (inv_update w); try done.
    exists (AtEntry c). repeat split; done.
  - apply (inv_update w); try done.
    + exists (AtCheck c). repeat split; done.
    + intros j Hne; simpl. rewrite Hlock. split; intros [=]; congruence.
  - apply (inv_update w); try done.
    exists (AtAlloc c). repeat split; try done. now exists v.
  - apply (inv_update w); try done.
    exists AtUnlock. repeat split; try done. simpl.
    now apply Forall_cons in HP as [_ HP].
  - apply (inv_update w); try done.
    exists (AtStore c r). repeat split; done.
  - apply (inv_update w); try done.
    + exists AtUnlock. repeat split; try done. simpl.
      now apply Forall_cons in HP as [_ HP].
    + intros j Hne Hj. congruence.
    + intros c' HPc'. simpl. destruct (Hstorage c' HPc') as [v' Hv'].
      destruct (decide (call_ptr c = call_ptr c')) as [<-|Hne].
      * exists r. apply lookup_insert_eq.
      * exists v'. now rewrite lookup_insert_ne.
  - apply (inv_update w); try done.
    + exists AtReturn. repeat split; done.
    + intros j Hne; simpl. rewrite Hlock. split; intros [=]; congruence.
Qed.

(** An index in place stays in place. *)
Lemma trans_stable w w' i p v :
  moves i w w' →
  wmem w !! p = Some (ObjInt v) → 0 ≤ v →
  wmem w' !! p = Some (ObjInt v).
Proof.
  intros Htr Hp Hv. destruct Htr; simpl; try exact Hp.
  match goal with H : holds_negative _ _ |- _ => destruct H as (v' & Hv' & Hneg) end.
  rewrite lookup_insert_ne; [exact Hp|]. intros Heq. rewrite Heq in Hv'.
  rewrite Hp in Hv'. injection Hv' as ->. lia.
Qed.

Section Counting.

Variables (cl : ex_class) (p : addr).
Hypothesis single : ∀ c, P c → call_class c = cl → call_ptr c = p.

(** A thread that is not about to write leaves what is settled settled. *)
Lemma settled_update w w1 i t t1 r :
  inv P w → settled p r w →
  threads w !! i = Some t →
  (∀ r', cur t ≠ store_part p r') →
  threads w1 = threads w → wmem w1 = wmem w →
  settled p r (set_thread i t1 w1).
Proof.
  intros Hinv [Hidx|(j & tj & Hj & Hcur)] Ht Hnot Hth Hmem.
  - left. simpl. now rewrite Hmem.
  - right. exists j, tj. split; [|done].
    destruct (decide (i = j)) as [->|Hne].
    + rewrite Ht in Hj. injection Hj as ->. now apply Hnot in Hcur.
    + rewrite lookup_set_thread_ne by done. now rewrite Hth.
Qed.

Lemma trans_counted w w' i :
  inv P w → counted cl p w → moves i w w' → counted cl p w'.
Proof.
  intros Hinv [Honce Hsettled] Htr.
  destruct Htr as [|t c rest Ht Hcur Htodo Hlock HP
                   |t c Ht Hcur Hlock HP
                   |t c v Ht Hcur Hlock HP Hv Hneg
                   |t c v Ht Hcur Hlock HP Hv Hpos
                   |t c r x Ht Hcur Hlock HP Hneg Hget
                   |t c r Ht Hcur Hlock HP Hneg
                   |t Ht Hcur Hlock HP].
  - now split.
  - split; [exact Honce|]. intros e He Hg.
    apply (settled_update w _ i t); try done; [now apply Hsettled|].
    intros r. now rewrite Hcur.
  - split; [exact Honce|]. intros e He Hg.
    apply (settled_update w _ i t); try done; [now apply Hsettled|].
    intros r. rewrite Hcur. simpl. rewrite call_code_parts. discriminate.
  - split; [exact Honce|]. intros e He Hg.
    apply (settled_update w _ i t); try done; [now apply Hsettled|].
    intros r. now rewrite Hcur.
  - split; [exact Honce|]. intros e He Hg.
    apply (settled_update w _ i t); try done; [now apply Hsettled|].
    intros r. now rewrite Hcur.
  - assert (∀ r', cur t ≠ store_part p r') as Hnot
      by (intros r'; now rewrite Hcur).
    assert (call_class c = cl → grants cl (calls_log w) = 0%nat) as Hzero.
    { intros Hcl. destruct (grants cl (calls_log w)) as [|n] eqn:Hg; [done|].
      exfalso.
      assert (∃ e, e ∈ calls_log w ∧ is_grant cl e = true) as (e & He & Hge).
      { unfold grants in Hg.
        destruct (filter (λ e, is_grant cl e = true) (calls_log w))
          as [|e l] eqn:Hf; [discriminate|].
        assert (e ∈ filter (λ e, is_grant cl e = true) (calls_log w)) as Hin
          by (rewrite Hf; left).
        apply list_elem_of_filter in Hin as [Hge He]. now exists e. }
      destruct (is_grant_true cl e Hge) as [_ Hpos].
      destruct (Hsettled e He Hge) as [Hidx|(j & tj & Hj & Hcurj)].
      - apply (negative_not_index (wmem w) p); [|now exists (ev_result e)].
        rewrite <- (single c); [exact Hneg| |exact Hcl].
        now apply Forall_cons in HP as [HPc _].
      - pose proof (pending_holds_lock w j tj p _ Hinv Hj Hcurj) as Hlj.
        rewrite Hlock in Hlj. injection Hlj as ->.
        rewrite Ht in Hj. injection Hj as ->. now apply Hnot in Hcurj. }
    split; simpl.
    + rewrite grants_snoc; unfold is_grant; simpl.
      case_bool_decide as Hcl; simpl; [|lia].
      rewrite (Hzero Hcl). destruct (0 <=? r); simpl; lia.
    + intros e He Hge. apply elem_of_app in He as [He|He].
      * apply (settled_update w _ i t); try done. now apply Hsettled.
      * apply list_elem_of_singleton in He as ->.
        destruct (is_grant_true cl _ Hge) as [Hcl _]. simpl in Hcl.
        right. exists i, (Thread (code_at (AtStore c r)) (todo t)).
        split; [now apply (lookup_set_thread_eq _ _ _ t)|].
        simpl. f_equal. apply single; [|exact Hcl].
        now apply Forall_cons in HP as [HPc _].
  - split; [exact Honce|]. intros e He Hge. left. simpl.
    destruct (is_grant_true cl e Hge) as [_ Hpos].
    destruct (Hsettled e He Hge) as [Hidx|(j & tj & Hj & Hcurj)].
    + rewrite lookup_insert_ne; [exact Hidx|]. intros Heq.
      apply (negative_not_index (wmem w) p);
        [now rewrite <- Heq|now exists (ev_result e)].
    + pose proof (pending_holds_lock w j tj p _ Hinv Hj Hcurj) as Hlj.
      rewrite Hlock in Hlj. injection Hlj as ->.
      rewrite Ht in Hj. injection Hj as ->.
      rewrite Hcur in Hcurj. simpl in Hcurj. injection Hcurj as -> ->.
      apply lookup_insert_eq.
  - split; [exact Honce|]. intros e He Hg.
    apply (settled_update w _ i t); try done; [now apply Hsettled|].
    intros r. now rewrite Hcur.
Qed.

(** With the index in place, the facility is not asked again. *)
Lemma trans_no_invocation w w' i :
  holds_index (wmem w) p → moves i w w' →
  invocations cl (calls_log w') = invocations cl (calls_log w).
Proof.
  intros Hidx Htr.
  destruct Htr as [| | | | |t c r x Ht Hcur Hlock HP Hneg Hget| |];
    simpl; try reflexivity.
  rewrite invocations_snoc. unfold is_invocation; simpl.
  case_bool_decide as Hcl; [|lia].
  exfalso. apply (negative_not_index (wmem w) p); [|exact Hidx].
  rewrite <- (single c); [exact Hneg| |exact Hcl].
  now apply Forall_cons in HP as [HPc _].
Qed.

Lemma run_counted sched w w' :
  inv P w → counted cl p w →
  run get_ex_new_index sched w = Some w' → counted cl p w'.
Proof.
  revert w. induction sched as [|i sched IH]; intros w Hinv Hc; simpl.
  - now intros [= <-].
  - destruct (step_trans w i Hinv) as (w1 & -> & Htr).
    apply IH; [now apply (trans_inv w _ i)|now apply (trans_counted w _ i)].
Qed.

Lemma run_no_invocation sched w w' :
  inv P w → holds_index (wmem w) p →
  run get_ex_new_index sched w = Some w' →
  invocations cl (calls_log w') = invocations cl (calls_log w).
Proof.
  revert w. induction sched as [|i sched IH]; intros w Hinv Hidx; simpl.
  - now intros [= <-].
  - destruct (step_trans w i Hinv) as (w1 & -> & Htr). intros Hrun.
    rewrite (IH w1); [now apply (trans_no_invocation w _ i)
                     |now apply (trans_inv w _ i)| |exact Hrun].
    destruct Hidx as (v & Hv & Hpos). exists v.
    split; [now apply (trans_stable w _ i)|exact Hpos].
Qed.

(** With the lock free, what has been handed out is in the storage. *)
Lemma counted_unlocked w (e : ex_event) :
  inv P w → counted cl p w →
  e ∈ calls_log w → is_grant cl e = true → sIndexLock_ w = None →
  wmem w !! p = Some (ObjInt (ev_result e)).
Proof.
  intros Hinv [_ Hsettled] He Hge Hfree.
  destruct (Hsettled e He Hge) as [Hidx|(j & tj & Hj & Hcur)]; [exact Hidx|].
  pose proof (pending_holds_lock w j tj p _ Hinv Hj Hcur) as Hl. congruence.
Qed.

End Counting.

(** Under the invariant every schedule can be run to its end. *)
Lemma run_inv sched w :
  inv P w →
  ∃ w', run get_ex_new_index sched w = Some w'
        ∧ inv P w'
        ∧ ∀ p v, wmem w !! p = Some (ObjInt v) → 0 ≤ v →
                 wmem w' !! p = Some (ObjInt v).
Proof.
  revert w. induction sched as [|i sched IH]; intros w Hinv; simpl.
  - exists w. split; [reflexivity|]. split; [exact Hinv|].
    intros p v Hp _. exact Hp.
  - destruct (step_trans w i Hinv) as (w1 & -> & Htr).
    destruct (IH w1) as (w' & Hrun & Hinv' & Hstable);
      [now apply (trans_inv w _ i)|].
    exists w'. split; [exact Hrun|]. split; [exact Hinv'|].
    intros p v Hp Hv. apply Hstable; [|exact Hv].
    now apply (trans_stable w _ i).
Qed.

End RegistryFacts.

Section RegistryStart.

Context {ex_state : Type}.
Variables (progs : list (list call)) (m : gmap N object) (x : ex_state).

Lemma init_inv :
  storage_ok progs m → inv (λ c, c ∈ concat progs) (init_world progs m x).
Proof.
  intros Hok. split; [|exact Hok].
  intros i t Hi. unfold init_world in Hi; simpl in Hi.
  apply list_lookup_fmap_Some in Hi as (prog & -> & Hprog).
  exists AtReturn. split; [reflexivity|]. split; [|split; [|exact I]].
  - simpl. apply Forall_forall. intros c Hc.
    apply list_elem_of_In, in_concat. exists prog.
    split; apply list_elem_of_In; [|exact Hc].
    now apply list_elem_of_lookup_2 in Hprog.
  - simpl. split; intros [=].
Qed.

Lemma init_counted (cl : ex_class) (p : addr) :
  counted cl p (init_world progs m x).
Proof.
  split; simpl; [unfold grants; simpl; lia|].
  intros e He. now apply elem_of_nil in He.
Qed.

End RegistryStart.


Section RegistryTheorems.

Context {ex_state : Type}.
Variable get_ex_new_index : ex_class → ex_args → ex_state → Z * ex_state.

Implicit Types (w : world ex_state) (t : thread) (i j : nat).

(** Threads that call the three acquisition functions any number of
    times, run under any schedule, never go wrong as long as every
    storage they name holds an [int].  At any two points [w] and, later,
    [w'] of the run: at most one thread is between taking the lock and
    giving it back; a storage that holds a non-negative index in [w]
    holds the same index in [w'].  For a class whose callers all name
    one storage [p], the facility has handed out at most one index by
    [w']; if [p] holds an index in [w], the facility is not asked for
    that class between [w] and [w']; and an index handed out for the
    class is what [p] holds whenever the lock is free. *)
Theorem index_allocated_at_most_once
    (progs : list (list call)) (m : gmap N object) (x : ex_state)
    (sched sched' : list nat) :
  storage_ok progs m →
  ∃ w w',
    run get_ex_new_index sched (init_world progs m x) = Some w
    ∧ run get_ex_new_index sched' w = Some w'
    ∧ (∀ i j ti tj,
         threads w' !! i = Some ti → threads w' !! j = Some tj →
         in_critical_section (cur ti) = true →
         in_critical_section (cur tj) = true →
         i = j)
    ∧ (∀ p v, wmem w !! p = Some (ObjInt v) → 0 ≤ v →
              wmem w' !! p = Some (ObjInt v))
    ∧ (∀ cl p, single_storage progs cl p →
         (grants cl (calls_log w') ≤ 1)%nat
         ∧ (holds_index (wmem w) p →
            invocations cl (calls_log w') = invocations cl (calls_log w))
         ∧ (∀ e, e ∈ calls_log w' → is_grant cl e = true →
                 sIndexLock_ w' = None →
                 wmem w' !! p = Some (ObjInt (ev_result e)))).
Proof.
  intros Hok. set (P := λ c, c ∈ concat progs).
  pose proof (init_inv progs m x Hok) as Hinv0. fold P in Hinv0.
  destruct (run_inv get_ex_new_index P sched _ Hinv0) as (w & Hrun & Hinv & _).
  destruct (run_inv get_ex_new_index P sched' _ Hinv) as (w' & Hrun' & Hinv' & Hst).
  exists w, w'. split; [exact Hrun|]. split; [exact Hrun'|].
  split.
  { intros i j ti tj Hi Hj Hci Hcj.
    pose proof (critical_section_holds_lock P w' i ti Hinv' Hi Hci) as Hli.
    pose proof (critical_section_holds_lock P w' j tj Hinv' Hj Hcj) as Hlj.
    congruence. }
  split; [exact Hst|].
  intros cl p Hsingle.
  assert (counted cl p w') as Hc'.
  { apply (run_counted get_ex_new_index P cl p Hsingle sched' w); [done| |done].
    apply (run_counted get_ex_new_index P cl p Hsingle sched
             (init_world progs m x)); [done| |done].
    apply init_counted. }
  split; [apply Hc'|]. split.
  - intros Hidx.
    now apply (run_no_invocation get_ex_new_index P cl p Hsingle sched' w).
  - intros e He Hge Hfree.
    now apply (counted_unlocked P cl p w' e).
Qed.

Lemma exec_never_throws i (c : cmd) w :
  exec get_ex_new_index i c w ≠ Thrown.
Proof.
  revert w. induction c as [|k IH|k IH|p k IH|p v k IH|cl a k IH]; intros w; simpl.
  - discriminate.
  - destruct (sIndexLock_ w); [discriminate|apply IH].
  - case_decide; [apply IH|discriminate].
  - destruct (wmem w !! p) as [[| |n]|]; try discriminate. apply IH.
  - destruct (wmem w !! p) as [[| |n]|]; try discriminate. apply IH.
  - destruct (get_ex_new_index cl a (ex w)) as [r x]. apply IH.
Qed.

(** One call run alone: the storage is read under the lock, the facility
    is asked only when it is negative, and the lock is free again at the
    end. *)
Lemma exec_call i (c : call) w (v : Z) :
  sIndexLock_ w = None →
  wmem w !! call_ptr c = Some (ObjInt v) →
  exec get_ex_new_index i (call_code c) w =
    Returned
      (if v <? 0
       then World (<[call_ptr c :=
                       ObjInt (get_ex_new_index (call_class c) (call_args c)
                                 (ex w)).1]> (wmem w))
                  None
                  (get_ex_new_index (call_class c) (call_args c) (ex w)).2
                  (calls_log w ++
                     [ExEvent i (call_class c)
                        (get_ex_new_index (call_class c) (call_args c)
                           (ex w)).1])
                  (threads w)
       else World (wmem w) None (ex w) (calls_log w) (threads w)).
Proof.
  intros Hlock Hv. rewrite call_code_parts. simpl. rewrite Hlock. simpl.
  rewrite Hv. destruct (v <? 0); simpl.
  - destruct (get_ex_new_index (call_class c) (call_args c) (ex w)) as [r x].
    simpl. rewrite Hv. simpl. rewrite decide_True by reflexivity. reflexivity.
  - rewrite decide_True by reflexivity. reflexivity.
Qed.

(** The same call, one instruction at a time with no other thread
    moving, ends where [exec] says. *)
Lemma run_call_alone i t (c : call) rest w (v : Z) :
  threads w !! i = Some t → cur t = Return → todo t = c :: rest →
  sIndexLock_ w = None →
  wmem w !! call_ptr c = Some (ObjInt v) →
  ∃ w1,
    exec get_ex_new_index i (call_code c) w = Returned w1
    ∧ run get_ex_new_index (replicate (if v <? 0 then 6 else 4) i) w =
        Some (set_thread i (Thread Return rest) w1).
Proof.
  intros Ht Hcur Htodo Hlock Hv.
  eexists. split; [apply (exec_call i c w v Hlock Hv)|].
  assert (i < length (threads w))%nat as Hlen by now apply lookup_lt_Some in Ht.
  destruct (v <? 0) eqn:Hneg; cbn [replicate run].
  - unfold step at 1. rewrite Ht, Hcur, Htodo.
    rewrite call_code_parts. unfold set_thread.
    next_step. rewrite Hlock.
    next_step. unfold check_part at 1. cbn [instr wmem]. rewrite Hv, Hneg.
    next_step. unfold alloc_part at 1. cbn [instr ex].
    destruct (get_ex_new_index (call_class c) (call_args c) (ex w)) as [r x].
    next_step. unfold store_part at 1. cbn [instr wmem]. rewrite Hv.
    next_step. rewrite decide_True by reflexivity.
    unfold set_lock, set_thread; cbn. now rewrite !list_insert_insert_eq.
  - unfold step at 1. rewrite Ht, Hcur, Htodo.
    rewrite call_code_parts. unfold set_thread.
    next_step. rewrite Hlock.
    next_step. unfold check_part at 1. cbn [instr wmem]. rewrite Hv, Hneg.
    next_step. rewrite decide_True by reflexivity.
    unfold set_lock, set_thread; cbn. now rewrite !list_insert_insert_eq.
Qed.

(** C8, amended. When the facility answers a negative value to a call
    that found the storage negative, the call returns normally: the
    negative answer is in the storage, the lock is free, nothing is
    thrown.  The next call on that storage asks the facility again. *)
Theorem failed_allocation_is_stored i (c : call) w (v r : Z) (x : ex_state) :
  sIndexLock_ w = None →
  wmem w !! call_ptr c = Some (ObjInt v) → v < 0 →
  get_ex_new_index (call_class c) (call_args c) (ex w) = (r, x) → r < 0 →
  ∃ w',
    exec get_ex_new_index i (call_code c) w = Returned w'
    ∧ wmem w' !! call_ptr c = Some (ObjInt r)
    ∧ sIndexLock_ w' = None
    ∧ ex w' = x
    ∧ calls_log w' = calls_log w ++ [ExEvent i (call_class c) r]
    ∧ ∀ r2 x2,
        get_ex_new_index (call_class c) (call_args c) x = (r2, x2) →
        ∃ w'',
          exec get_ex_new_index i (call_code c) w' = Returned w''
          ∧ wmem w'' !! call_ptr c = Some (ObjInt r2)
          ∧ calls_log w'' = calls_log w' ++ [ExEvent i (call_class c) r2].
Proof.
  intros Hlock Hv Hneg Hget Hr.
  assert ((v <? 0) = true) as Hvb by now apply Z.ltb_lt.
  assert ((r <? 0) = true) as Hrb by now apply Z.ltb_lt.
  eexists. split; [apply (exec_call i c w v Hlock Hv)|].
  rewrite Hvb, Hget. cbn [wmem sIndexLock_ ex calls_log fst snd].
  split; [apply lookup_insert_eq|]. repeat (split; [reflexivity|]).
  intros r2 x2 Hget2. eexists. split.
  - apply (exec_call i c _ r); [reflexivity|apply lookup_insert_eq].
  - rewrite Hrb. cbn [wmem sIndexLock_ ex calls_log fst snd]. rewrite Hget2.
    split; [apply lookup_insert_eq|reflexivity].
Qed.

End RegistryTheorems.

Lemma index_allocated_at_most_once_witness :
  ∃ w w',
    run (bounded_facility 5) [0; 1; 0; 1; 2; 0; 1; 0]%nat
      (init_world example_progs example_storage 0) = Some w
    ∧ run (bounded_facility 5) [0; 0; 1; 1; 1; 2; 1; 0; 0; 0; 0; 2]%nat w
        = Some w'
    ∧ (grants CRYPTO_EX_INDEX_SSL_CTX (calls_log w') ≤ 1)%nat
    ∧ (grants CRYPTO_EX_INDEX_RSA (calls_log w') ≤ 1)%nat.
Proof.
  assert (storage_ok example_progs example_storage) as Hok.
  { intros c Hc. unfold example_progs in Hc. simpl in Hc.
    repeat (apply elem_of_cons in Hc as [->|Hc]);
      try (now apply elem_of_nil in Hc);
      [exists (-1)|exists (-1)|exists (-1)|exists 7]; reflexivity. }
  destruct (index_allocated_at_most_once (bounded_facility 5)
              example_progs example_storage 0
              [0; 1; 0; 1; 2; 0; 1; 0]%nat
              [0; 0; 1; 1; 1; 2; 1; 0; 0; 0; 0; 2]%nat Hok)
    as (w & w' & Hrun & Hrun' & _ & _ & Hcl).
  exists w, w'. split; [exact Hrun|]. split; [exact Hrun'|]. split.
  - apply (Hcl CRYPTO_EX_INDEX_SSL_CTX 8%N).
    intros c Hc. unfold example_progs in Hc. simpl in Hc.
    repeat (apply elem_of_cons in Hc as [->|Hc]);
      try (now apply elem_of_nil in Hc); try reflexivity; discriminate.
  - apply (Hcl CRYPTO_EX_INDEX_RSA 9%N).
    intros c Hc. unfold example_progs in Hc. simpl in Hc.
    repeat (apply elem_of_cons in Hc as [->|Hc]);
      try (now apply elem_of_nil in Hc); try reflexivity; discriminate.
Defined.

Lemma failed_allocation_is_stored_witness :
  ∃ w',
    exec (bounded_facility 0) 0%nat (getSSLCtxExIndex 8%N)
      (init_world example_progs example_storage 0) = Returned w'
    ∧ wmem w' !! 8%N = Some (ObjInt (-1))
    ∧ sIndexLock_ w' = None.
Proof.
  destruct (failed_allocation_is_stored (bounded_facility 0) 0%nat
              (CallSSLCtx 8%N)
              (init_world example_progs example_storage 0) (-1) (-1) 0)
    as (w' & Hexec & Hmem & Hlock & _).
  - reflexivity.
  - reflexivity.
  - lia.
  - reflexivity.
  - lia.
  - exists w'. split; [exact Hexec|]. split; assumption.
Defined.

(** C8, as stated, fails: with a facility that has no index to give, the
    call returns and leaves -1 in the storage; nothing is thrown. *)
Lemma allocation_failure_not_propagated :
  bounded_facility 0 CRYPTO_EX_INDEX_SSL_CTX
    (ExArgs 0 nullptr CbNull CbNull CbNull) 0 = (-1, 0)
  ∧ (∃ w',
       exec (bounded_facility 0) 0%nat (getSSLCtxExIndex 8%N)
         (init_world example_progs example_storage 0) = Returned w'
       ∧ wmem w' !! 8%N = Some (ObjInt (-1)))
  ∧ exec (bounded_facility 0) 0%nat (getSSLCtxExIndex 8%N)
      (init_world example_progs example_storage 0) ≠ Thrown.
Proof.
  split; [reflexivity|]. split.
  - eexists. split; [vm_compute; reflexivity|]. reflexivity.
  - vm_compute. discriminate.
Qed.

(* ===================================================================== *)
(** * Properties of the certificate accessors *)
(* ===================================================================== *)

Lemma find_first {A : Type} (f : A → bool) (pre : list A) (x : A)
    (post : list A) :
  (∀ y, y ∈ pre → f y = false) → f x = true →
  List.find f (pre ++ x :: post) = Some x.
Proof.
  intros Hpre Hx. induction pre as [|y pre IH]; simpl.
  - now rewrite Hx.
  - rewrite (Hpre y) by left. apply IH. intros z Hz. apply Hpre. now right.
Qed.

Lemma find_absent {A : Type} (f : A → bool) (l : list A) :
  (∀ y, y ∈ l → f y = false) → List.find f l = None.
Proof.
  intros Hl. induction l as [|y l IH]; simpl; [reflexivity|].
  rewrite (Hl y) by left. apply IH. intros z Hz. apply Hl. now right.
Qed.

Lemma omap_all_some {A B : Type} (f : A → option B) (l : list A)
    (k : list B) :
  Forall2 (λ a b, f a = Some b) l k → omap f l = k.
Proof.
  induction 1 as [|a b l k Hab _ IH]; [reflexivity|].
  change (omap f (a :: l))
    with (match f a with Some y => y :: omap f l | None => omap f l end).
  now rewrite Hab, IH.
Qed.

Lemma omap_skip {A B : Type} (f : A → option B) (l1 l2 : list A) (a : A) :
  f a = None → omap f (l1 ++ a :: l2) = omap f l1 ++ omap f l2.
Proof.
  intros Ha. rewrite omap_app. f_equal.
  change (omap f (a :: l2))
    with (match f a with Some y => y :: omap f l2 | None => omap f l2 end).
  now rewrite Ha.
Qed.

Section CertificateFacts.

Variable asn1_to_text : ASN1_STRING → option string.
Variable GENERAL_NAME : Type.
Variable d2i_GENERAL_NAMES : string → option (list GENERAL_NAME).
Variable general_name_text : GENERAL_NAME → option string.

Local Abbreviation getCN := (getCommonName asn1_to_text).
Local Abbreviation getSAN :=
  (getSubjectAltName GENERAL_NAME d2i_GENERAL_NAMES general_name_text).

(** C7. [getCommonName] is total: its answer is absent when the
    certificate has no subject or the subject has no Common Name
    attribute, and otherwise is the text of the first Common Name
    attribute, absent when that is not decodable.  An answer that is
    present is the decoded value of a Common Name attribute of the
    subject. *)
Theorem getCommonName_spec (cert : X509) :
  (subject_name cert = None → getCN cert = None)
  ∧ (∀ name,
       subject_name cert = Some name →
       (∀ e, e ∈ name → entry_object e ≠ NID_commonName) →
       getCN cert = None)
  ∧ (∀ pre e post,
       subject_name cert = Some (pre ++ e :: post) →
       (∀ e', e' ∈ pre → entry_object e' ≠ NID_commonName) →
       entry_object e = NID_commonName →
       getCN cert = asn1_to_text (entry_value e))
  ∧ (∀ s,
       getCN cert = Some s →
       ∃ name e,
         subject_name cert = Some name ∧ e ∈ name
         ∧ entry_object e = NID_commonName
         ∧ asn1_to_text (entry_value e) = Some s).
Proof.
  unfold getCommonName. split; [|split; [|split]].
  - now intros ->.
  - intros name -> Hnone. rewrite find_absent; [reflexivity|].
    intros e He. unfold is_commonName. apply bool_decide_eq_false_2.
    now apply Hnone.
  - intros pre e post -> Hpre He. rewrite (find_first _ pre e post).
    + reflexivity.
    + intros e' He'. apply bool_decide_eq_false_2. now apply Hpre.
    + now apply bool_decide_eq_true_2.
  - intros s. destruct (subject_name cert) as [name|]; [|discriminate].
    destruct (List.find is_commonName name) as [e|] eqn:Hfind; [|discriminate].
    intros Hs. apply List.find_some in Hfind as [Hin Hcn].
    exists name, e. split; [reflexivity|]. split; [now apply list_elem_of_In|].
    split; [|exact Hs]. now apply bool_decide_eq_true_1 in Hcn.
Qed.

(** C6. [getSubjectAltName] answers absent when no extension of the
    certificate is a Subject Alternative Name.  When there is one, the
    first: absent if it does not decode, and otherwise the texts of its
    entries that have one; the empty list, which is not absent, if it
    decodes to no entry; the texts of the entries in the extension's
    order if each has one; and an entry without a text is left out
    while those before and after it stay, in order.  It answers absent
    in no other case. *)
Theorem getSubjectAltName_spec (cert : X509) :
  ((∀ x, x ∈ extensions cert → ext_object x ≠ NID_subject_alt_name) →
   getSAN cert = None)
  ∧ (∀ pre x post,
       extensions cert = pre ++ x :: post →
       (∀ x', x' ∈ pre → ext_object x' ≠ NID_subject_alt_name) →
       ext_object x = NID_subject_alt_name →
       (d2i_GENERAL_NAMES (ext_value x) = None → getSAN cert = None)
       ∧ (∀ names,
            d2i_GENERAL_NAMES (ext_value x) = Some names →
            getSAN cert = Some (omap general_name_text names))
       ∧ (d2i_GENERAL_NAMES (ext_value x) = Some [] →
          getSAN cert = Some [] ∧ getSAN cert ≠ None)
       ∧ (∀ names texts,
            d2i_GENERAL_NAMES (ext_value x) = Some names →
            Forall2 (λ n s, general_name_text n = Some s) names texts →
            getSAN cert = Some texts)
       ∧ (∀ names1 bad names2,
            d2i_GENERAL_NAMES (ext_value x) = Some (names1 ++ bad :: names2) →
            general_name_text bad = None →
            getSAN cert = Some (omap general_name_text names1 ++
                                omap general_name_text names2)))
  ∧ (getSAN cert = None →
     (∀ x, x ∈ extensions cert → ext_object x ≠ NID_subject_alt_name)
     ∨ ∃ x, x ∈ extensions cert
            ∧ ext_object x = NID_subject_alt_name
            ∧ d2i_GENERAL_NAMES (ext_value x) = None).
Proof.
  unfold getSubjectAltName. split; [|split].
  - intros Hnone. rewrite find_absent; [reflexivity|].
    intros x Hx. apply bool_decide_eq_false_2. now apply Hnone.
  - intros pre x post -> Hpre Hx. rewrite (find_first _ pre x post).
    + split; [now intros ->|]. split; [now intros names ->|].
      split; [now intros ->|]. split.
      * intros names texts -> Hall. now rewrite (omap_all_some _ names texts).
      * intros names1 bad names2 -> Hbad. now rewrite omap_skip.
    + intros x' Hx'. apply bool_decide_eq_false_2. now apply Hpre.
    + now apply bool_decide_eq_true_2.
  - destruct (List.find is_subject_alt_name (extensions cert)) as [x|] eqn:Hfind.
    + apply List.find_some in Hfind as [Hin Hsan].
      destruct (d2i_GENERAL_NAMES (ext_value x)) as [names|] eqn:Hd2i;
        [discriminate|].
      intros _. right. exists x. split; [now apply list_elem_of_In|].
      split; [|exact Hd2i]. now apply bool_decide_eq_true_1 in Hsan.
    + intros _. left. intros x Hx Hsan.
      apply list_elem_of_In in Hx.
      pose proof (List.find_none _ _ Hfind x Hx) as Hf.
      unfold is_subject_alt_name in Hf.
      now rewrite bool_decide_eq_true_2 in Hf.
Qed.

End CertificateFacts.

Lemma getCommonName_spec_witness :
  getCommonName example_asn1_to_text example_cert = Some "example.com"%string
  ∧ getCommonName example_asn1_to_text example_bare_cert = None.
Proof.
  split.
  - destruct (getCommonName_spec example_asn1_to_text example_cert)
      as (_ & _ & Hfirst & _).
    rewrite (Hfirst [ {| entry_object := [2; 5; 4; 10]%N;
                        entry_value := {| asn1_tag := 19%N;
                                          asn1_data := "Acme" |} |} ]
               {| entry_object := NID_commonName;
                  entry_value := {| asn1_tag := 12%N;
                                    asn1_data := "example.com" |} |} []).
    + reflexivity.
    + reflexivity.
    + intros e' He'. apply list_elem_of_singleton in He' as ->. discriminate.
    + reflexivity.
  - destruct (getCommonName_spec example_asn1_to_text example_bare_cert)
      as (Hnone & _).
    now apply Hnone.
Defined.

Lemma getSubjectAltName_spec_witness :
  getSubjectAltName string example_d2i_GENERAL_NAMES
    example_general_name_text example_cert
    = Some ["DNS:a.com"; "DNS:b.com"]%string
  ∧ getSubjectAltName string example_d2i_GENERAL_NAMES
      example_general_name_text example_bare_cert = None.
Proof.
  split.
  - destruct (getSubjectAltName_spec string example_d2i_GENERAL_NAMES
                example_general_name_text example_cert) as (_ & Hpresent & _).
    destruct (Hpresent
                [ {| ext_object := [2; 5; 29; 15]%N; ext_critical := true;
                     ext_value := "K" |} ]
                {| ext_object := NID_subject_alt_name; ext_critical := false;
                   ext_value := String "S"
                     ("DNS:a.com" +:+ String "010" ("bogus" +:+
                      String "010" "DNS:b.com")) |} [])
      as (_ & _ & _ & _ & Hskip).
    + reflexivity.
    + intros x' Hx'. apply list_elem_of_singleton in Hx' as ->. discriminate.
    + reflexivity.
    + rewrite (Hskip ["DNS:a.com"%string] "bogus"%string ["DNS:b.com"%string]);
        reflexivity.
  - destruct (getSubjectAltName_spec string example_d2i_GENERAL_NAMES
                example_general_name_text example_bare_cert) as (Habsent & _ & _).
    apply Habsent. intros x Hx. now apply elem_of_nil in Hx.
Defined.

(* ===================================================================== *)
(** * Further properties: the logged byte, the callbacks composed, and
      whole runs of the index acquisition functions *)
(* ===================================================================== *)

(** X9. The byte that is logged tells the flags apart as far as
    [getResumeState] reads them: it is 0 exactly when the session was
    not reused, 1 exactly when it was reused by session id, 3 exactly
    when it was reused otherwise, and never 2; two sockets get the same
    byte exactly when they agree on reuse and, if reused, on the way. *)
Theorem resume_code_determines_flags (a b : AsyncSSLSocket) :
  (SSLResumeEnum_value (getResumeState a) = 0
     ↔ getSSLSessionReused a = false)
  ∧ (SSLResumeEnum_value (getResumeState a) = 1
       ↔ getSSLSessionReused a = true ∧ sessionIDResumed a = true)
  ∧ (SSLResumeEnum_value (getResumeState a) = 3
       ↔ getSSLSessionReused a = true ∧ sessionIDResumed a = false)
  ∧ SSLResumeEnum_value (getResumeState a) ≠ 2
  ∧ (SSLResumeEnum_value (getResumeState a)
       = SSLResumeEnum_value (getResumeState b)
     ↔ getSSLSessionReused a = getSSLSessionReused b
       ∧ (getSSLSessionReused a = true →
          sessionIDResumed a = sessionIDResumed b)).
Proof.
  destruct a as [ra ia], b as [rb ib]. unfold getResumeState; simpl.
  destruct ra, ia, rb, ib; simpl; repeat split; try discriminate;
    try reflexivity; try (intros [? ?]; discriminate);
    try (intros [? H]; specialize (H eq_refl); discriminate);
    try (intros ?; discriminate).
Qed.

Section CallbackComposition.

Variable operator_new : gmap N object → addr.
Variables (to from parent ad argp : addr) (idx argl : Z).

Local Abbreviation dup := (exDataStdStringDup operator_new to from).
Local Abbreviation free := (exDataStdStringFree parent).
Local Abbreviation free_all := (free_each parent ad idx argl argp).

Lemma free_each_app (l1 l2 : list addr) (st : mstate) :
  free_all (l1 ++ l2) st =
    match free_all l1 st with
    | Some (_, st1) => free_all l2 st1
    | None => None
    end.
Proof.
  revert st. induction l1 as [|p l1 IH]; intros st; [reflexivity|].
  cbn [app free_each]. unfold mbind, M_bind.
  destruct (free p ad idx argl argp st) as [[[] st1]|]; [apply IH|reflexivity].
Qed.

(** The free callback never brings an object into being. *)
Lemma free_keeps_absent (p a : addr) (st st' : mstate) :
  free p ad idx argl argp st = Some (tt, st') →
  mem st !! a = None → mem st' !! a = None.
Proof.
  unfold exDataStdStringFree. case_bool_decide.
  - unfold delete_string. destruct (mem st !! p) as [[| |]|]; try discriminate.
    intros [= <-] Ha. simpl. destruct (decide (p = a)) as [->|Hne].
    + apply lookup_delete_eq.
    + now rewrite lookup_delete_ne.
  - now intros [= <-].
Qed.

Lemma free_each_keeps_absent (l : list addr) (a : addr) (st st' : mstate) :
  free_all l st = Some (tt, st') →
  mem st !! a = None → mem st' !! a = None.
Proof.
  revert st. induction l as [|p l IH]; intros st; cbn [free_each].
  - now intros [= <-].
  - unfold mbind, M_bind.
    destruct (free p ad idx argl argp st) as [[[] st1]|] eqn:Hp; [|discriminate].
    intros Hrest Ha. apply (IH st1 Hrest). now apply (free_keeps_absent p a st).
Qed.

Lemma free_removes (p : addr) (st st' : mstate) :
  p ≠ nullptr →
  free p ad idx argl argp st = Some (tt, st') → mem st' !! p = None.
Proof.
  intros Hp. unfold exDataStdStringFree.
  rewrite bool_decide_eq_true_2 by exact Hp. unfold delete_string.
  destruct (mem st !! p) as [[| |]|]; try discriminate.
  intros [= <-]. apply lookup_delete_eq.
Qed.

(** X7. The free callback keeps no record of what it has freed: whatever
    the heap, a run of it over slot values among which the same non-null
    pointer comes twice has no defined behaviour. *)
Theorem free_same_pointer_twice_undefined
    (l1 l2 l3 : list addr) (p : addr) (st : mstate) :
  p ≠ nullptr →
  free_all (l1 ++ p :: l2 ++ p :: l3) st = None.
Proof.
  intros Hp. rewrite free_each_app.
  destruct (free_all l1 st) as [[[] st1]|]; [|reflexivity].
  cbn [free_each]. unfold mbind at 1, M_bind at 1.
  destruct (free p ad idx argl argp st1) as [[[] st2]|] eqn:H1; [|reflexivity].
  rewrite free_each_app.
  destruct (free_all l2 st2) as [[[] st3]|] eqn:H2; [|reflexivity].
  cbn [free_each]. unfold mbind, M_bind.
  assert (mem st3 !! p = None) as Hgone.
  { apply (free_each_keeps_absent l2 p st2 st3 H2).
    now apply (free_removes p st1). }
  unfold exDataStdStringFree at 1.
  rewrite bool_decide_eq_true_2 by exact Hp.
  unfold delete_string. now rewrite Hgone.
Qed.

(** X8. Slot values, each null or a string of its own, may be freed in
    any order: both runs are defined, leave the same heap and delete
    every string as often. *)
Theorem free_order_irrelevant (ptrs ptrs' : list addr) (st : mstate) :
  NoDup (owned ptrs) →
  (∀ p, p ∈ owned ptrs → ∃ s, mem st !! p = Some (ObjString s)) →
  ptrs ≡ₚ ptrs' →
  ∃ st1 st2,
    free_all ptrs st = Some (tt, st1)
    ∧ free_all ptrs' st = Some (tt, st2)
    ∧ mem st1 = mem st2
    ∧ ∀ p, deletions p (trace st1) = deletions p (trace st2).
Proof.
  intros Hnd Hlive Hperm.
  assert (owned ptrs ≡ₚ owned ptrs') as Hown
    by (unfold owned; now rewrite Hperm).
  eexists _, _. split; [now apply free_each_owned|]. split.
  - apply free_each_owned.
    + now rewrite <- Hown.
    + intros p Hp. apply Hlive. now rewrite Hown.
  - cbn [mem trace]. split.
    + apply map_eq. intros a. rewrite !release_all_lookup.
      destruct (decide (a ∈ owned ptrs)) as [Hin|Hout];
        destruct (decide (a ∈ owned ptrs')) as [Hin'|Hout']; try reflexivity.
      * exfalso. apply Hout'. now rewrite <- Hown.
      * exfalso. apply Hout. now rewrite Hown.
    + intros p. rewrite !deletions_app.
      rewrite !deletions_of_owned by (try rewrite <- Hown; exact Hnd).
      destruct (decide (p ∈ owned ptrs)) as [Hin|Hout];
        destruct (decide (p ∈ owned ptrs')) as [Hin'|Hout']; try reflexivity.
      * exfalso. apply Hout'. now rewrite <- Hown.
      * exfalso. apply Hout. now rewrite Hown.
Qed.

Hypothesis operator_new_fresh :
  ∀ h, h !! operator_new h = None ∧ operator_new h ≠ nullptr.

(** X6. After the duplicate callback has run on a slot word that points
    to a string, the copy and the original can both be freed, in either
    order: freeing the copy first gives back the heap as it was but for
    the slot word, with the original still alive; after both frees only
    the original is gone and the slot word is changed. *)
Theorem dup_then_free_both (ptr p : addr) (s : string) (st : mstate) :
  mem st !! ptr = Some (ObjPtr p) →
  p ≠ nullptr →
  mem st !! p = Some (ObjString s) →
  ∃ q st1,
    dup ptr idx argl argp st = Some (1, st1)
    ∧ mem st1 !! ptr = Some (ObjPtr q)
    ∧ (∃ st2 st3,
         free q ad idx argl argp st1 = Some (tt, st2)
         ∧ mem st2 = <[ptr := ObjPtr q]> (mem st)
         ∧ free p ad idx argl argp st2 = Some (tt, st3)
         ∧ mem st3 = <[ptr := ObjPtr q]> (delete p (mem st)))
    ∧ (∃ st2 st3,
         free p ad idx argl argp st1 = Some (tt, st2)
         ∧ mem st2 !! q = Some (ObjString s)
         ∧ free q ad idx argl argp st2 = Some (tt, st3)
         ∧ mem st3 = <[ptr := ObjPtr q]> (delete p (mem st))).
Proof.
  intros Hptr Hp Hs.
  destruct (operator_new_fresh (mem st)) as [Hfresh Hnonnull].
  set (q := operator_new (mem st)) in *.
  assert (q ≠ p) as Hqp by congruence.
  assert (q ≠ ptr) as Hqptr by congruence.
  assert (p ≠ ptr) as Hpptr by congruence.
  eexists q, _. split; [now apply (dup_string operator_new to from argp idx argl ptr p s)|].
  fold q. cbn [mem]. split; [apply lookup_insert_eq|]. split.
  - eexists _, _. split.
    { apply (free_string parent ad argp idx argl q s); [exact Hnonnull|].
      cbn [mem]. rewrite lookup_insert_ne by congruence. apply lookup_insert_eq. }
    cbn [mem]. split.
    { rewrite delete_insert_ne by congruence. rewrite delete_insert_eq.
      now rewrite delete_id. }
    split.
    { apply (free_string parent ad argp idx argl p s); [exact Hp|].
      cbn [mem]. rewrite lookup_delete_ne by congruence.
      now rewrite !lookup_insert_ne by congruence. }
    cbn [mem]. rewrite (delete_insert_ne _ q ptr) by congruence.
    rewrite delete_insert_eq. rewrite (delete_id _ q) by exact Hfresh.
    now rewrite delete_insert_ne by congruence.
  - eexists _, _. split.
    { apply (free_string parent ad argp idx argl p s); [exact Hp|].
      cbn [mem]. now rewrite !lookup_insert_ne by congruence. }
    cbn [mem]. split.
    { rewrite lookup_delete_ne by congruence.
      rewrite lookup_insert_ne by congruence. apply lookup_insert_eq. }
    split.
    { apply (free_string parent ad argp idx argl q s); [exact Hnonnull|].
      cbn [mem]. rewrite lookup_delete_ne by congruence.
      rewrite lookup_insert_ne by congruence. apply lookup_insert_eq. }
    cbn [mem]. apply map_eq. intros a.
    destruct (decide (a = q)) as [->|Haq].
    + rewrite lookup_delete_eq. rewrite lookup_insert_ne by congruence.
      rewrite lookup_delete_ne by congruence. now rewrite Hfresh.
    + rewrite lookup_delete_ne by congruence.
      destruct (decide (a = p)) as [->|Hap].
      * rewrite lookup_delete_eq. rewrite lookup_insert_ne by congruence.
        now rewrite lookup_delete_eq.
      * rewrite lookup_delete_ne by congruence.
        destruct (decide (a = ptr)) as [->|Haptr].
        -- now rewrite !lookup_insert_eq.
        -- rewrite !lookup_insert_ne by congruence.
           now rewrite lookup_delete_ne by congruence.
Qed.

End CallbackComposition.

Lemma cmd_steps_at (ps : pos) :
  cmd_steps (code_at ps) =
    match ps with
    | AtReturn => 0 | AtEntry _ => 5 | AtCheck _ => 4 | AtAlloc _ => 3
    | AtStore _ _ => 2 | AtUnlock => 1
    end%nat.
Proof. destruct ps as [|c|c|c|c r|]; try reflexivity. now destruct c. Qed.

Lemma sum_list_insert (f : thread → nat) (l : list thread) (i : nat)
    (t t' : thread) :
  l !! i = Some t →
  (sum_list (f <$> <[i := t']> l) + f t = sum_list (f <$> l) + f t')%nat.
Proof.
  revert i. induction l as [|a l IH]; intros i Hi; [discriminate|].
  destruct i as [|i]; cbn in *.
  - injection Hi as ->.
    generalize (sum_list (f <$> l)) (f t) (f t'). intros; lia.
  - specialize (IH i Hi). rewrite <- !Nat.add_assoc. f_equal. exact IH.
Qed.

Section WorkFacts.

Context {ex_state : Type}.
Variable get_ex_new_index : ex_class → ex_args → ex_state → Z * ex_state.
Variable P : call → Prop.

Implicit Types (w : world ex_state) (t : thread) (i j : nat).

Local Abbreviation moves := (trans get_ex_new_index P).

Lemma work_set_thread w w1 i t t1 :
  threads w1 = threads w → threads w !! i = Some t →
  (thread_work t1 < thread_work t)%nat →
  (work (set_thread i t1 w1) < work w)%nat.
Proof.
  intros Hth Ht Hlt. unfold work, set_thread; cbn [threads]. rewrite Hth.
  pose proof (sum_list_insert thread_work (threads w) i t t1 Ht). lia.
Qed.

(** A move that is not a wait uses up one of the steps left. *)
Lemma trans_work w w' i :
  moves i w w' → w' = w ∨ (work w' < work w)%nat.
Proof.
  intros Htr.
  destruct Htr as [|t c rest Ht Hcur Htodo Hlock HP
                   |t c Ht Hcur Hlock HP
                   |t c v Ht Hcur Hlock HP Hv Hneg
                   |t c v Ht Hcur Hlock HP Hv Hpos
                   |t c r x Ht Hcur Hlock HP Hneg Hget
                   |t c r Ht Hcur Hlock HP Hneg
                   |t Ht Hcur Hlock HP]; [now left|right..];
    apply (work_set_thread w _ i t); try done;
    unfold thread_work; cbn [cur todo]; rewrite Hcur, !cmd_steps_at;
    try lia.
  rewrite Htodo. cbn [length]. lia.
Qed.


Lemma set_thread_is_Some w i j t :
  is_Some (threads w !! j) → is_Some (threads (set_thread i t w) !! j).
Proof.
  unfold set_thread; cbn [threads]. rewrite !lookup_lt_is_Some.
  now rewrite length_insert.
Qed.

Lemma trans_owner w w' i : owner_ok w → moves i w w' → owner_ok w'.
Proof.
  intros Hown Htr.
  destruct Htr as [|t c rest Ht Hcur Htodo Hlock HP
                   |t c Ht Hcur Hlock HP
                   |t c v Ht Hcur Hlock HP Hv Hneg
                   |t c v Ht Hcur Hlock HP Hv Hpos
                   |t c r x Ht Hcur Hlock HP Hneg Hget
                   |t c r Ht Hcur Hlock HP Hneg
                   |t Ht Hcur Hlock HP]; [exact Hown|..];
    intros j Hj; cbn in Hj; try discriminate;
    try (apply (set_thread_is_Some _ i j); cbn [threads set_lock set_ex set_mem];
         now apply Hown).
  injection Hj as <-.
  apply (set_thread_is_Some _ i i). cbn [threads set_lock]. now rewrite Ht.
Qed.

(** A thread that holds the lock, or has work left while the lock is
    free, moves when it is scheduled. *)
Lemma step_enabled w i t :
  inv P w → threads w !! i = Some t →
  sIndexLock_ w = Some i
  ∨ (sIndexLock_ w = None ∧ (0 < thread_work t)%nat) →
  ∃ w', step get_ex_new_index i w = Some w' ∧ (work w' < work w)%nat.
Proof.
  intros [Hthreads Hstorage] Ht Hen. unfold step. rewrite Ht.
  destruct (Hthreads i t Ht) as (ps & Hcur & HP & Hcs & Hfact).
  assert (∀ t1 w1, threads w1 = threads w →
            (cmd_steps (cur t1) + 6 * length (todo t1)
               < cmd_steps (code_at ps) + 6 * length (todo t))%nat →
            (work (set_thread i t1 w1) < work w)%nat) as Hless.
  { intros t1 w1 Hth Hlt. apply (work_set_thread w w1 i t); try done.
    unfold thread_work. now rewrite Hcur. }
  rewrite Hcur.
  destruct ps as [|c|c|c|c r|]; simpl in Hcs, Hfact, HP.
  - assert (sIndexLock_ w = None ∧ (0 < thread_work t)%nat) as [Hfree Hwork].
    { destruct Hen as [Hl|Hen]; [|exact Hen].
      apply Hcs in Hl. discriminate. }
    unfold thread_work in Hwork. rewrite Hcur in Hwork. simpl in Hwork.
    simpl. destruct (todo t) as [|c rest] eqn:Htodo; [simpl in Hwork; lia|].
    eexists; split; [reflexivity|]. apply Hless; [reflexivity|].
    cbn [cur todo]. change (call_code c) with (code_at (AtEntry c)).
    rewrite !cmd_steps_at. cbn [length]. lia.
  - assert (sIndexLock_ w = None) as Hfree.
    { destruct Hen as [Hl|[Hl _]]; [|exact Hl]. apply Hcs in Hl. discriminate. }
    simpl. rewrite call_code_parts. simpl. rewrite Hfree.
    eexists; split; [reflexivity|]. apply Hless; [reflexivity|].
    cbn [cur todo]. change (check_part (call_class c) (call_args c) (call_ptr c))
      with (code_at (AtCheck c)).
    rewrite !cmd_steps_at. lia.
  - apply Forall_cons in HP as [HPc _].
    destruct (Hstorage c HPc) as [v Hv].
    simpl. rewrite Hv.
    eexists; split; [reflexivity|]. apply Hless; [reflexivity|].
    cbn [cur todo]. rewrite (cmd_steps_at (AtCheck c)).
    destruct (v <? 0).
    + change (alloc_part (call_class c) (call_args c) (call_ptr c))
        with (code_at (AtAlloc c)). rewrite cmd_steps_at. lia.
    + simpl. lia.
  - simpl.
    destruct (get_ex_new_index (call_class c) (call_args c) (ex w)) as [r x].
    eexists; split; [reflexivity|]. apply Hless; [reflexivity|].
    cbn [cur todo]. change (store_part (call_ptr c) r) with (code_at (AtStore c r)).
    rewrite !cmd_steps_at. lia.
  - destruct Hfact as (v & Hv & Hneg).
    simpl. rewrite Hv.
    eexists; split; [reflexivity|]. apply Hless; [reflexivity|].
    cbn [cur todo]. rewrite (cmd_steps_at (AtStore c r)). simpl. lia.
  - assert (sIndexLock_ w = Some i) as Hlock by now apply Hcs.
    simpl. rewrite decide_True by exact Hlock.
    eexists; split; [reflexivity|]. apply Hless; [reflexivity|].
    cbn [cur todo]. simpl. lia.
Qed.

Lemma run_work sched w w' :
  inv P w → owner_ok w →
  run get_ex_new_index sched w = Some w' →
  inv P w' ∧ owner_ok w' ∧ (work w' ≤ work w)%nat.
Proof.
  revert w. induction sched as [|i sched IH]; intros w Hinv Hown; simpl.
  - intros [= <-]. split; [exact Hinv|]. split; [exact Hown|lia].
  - destruct (step_trans get_ex_new_index P w i Hinv) as (w1 & -> & Htr).
    intros Hrun.
    destruct (IH w1) as (Hinv' & Hown' & Hle);
      [now apply (trans_inv get_ex_new_index P w _ i)
      |now apply (trans_owner w _ i)|exact Hrun|].
    split; [exact Hinv'|]. split; [exact Hown'|].
    destruct (trans_work w w1 i Htr) as [->|Hlt]; lia.
Qed.

End WorkFacts.

Lemma cmd_steps_zero (c : cmd) : cmd_steps c = 0%nat → c = Return.
Proof. now destruct c. Qed.

Lemma sum_list_positive (l : list nat) :
  (0 < sum_list l)%nat → ∃ i n, l !! i = Some n ∧ (0 < n)%nat.
Proof.
  induction l as [|a l IH]; simpl; [lia|]. intros Hpos.
  destruct a as [|a].
  - destruct IH as (i & n & Hi & Hn); [exact Hpos|]. now exists (S i), n.
  - exists 0%nat, (S a). split; [reflexivity|lia].
Qed.

Lemma sum_list_zero (l : list nat) (i n : nat) :
  sum_list l = 0%nat → l !! i = Some n → n = 0%nat.
Proof.
  revert i. induction l as [|a l IH]; intros i Hsum Hi; [discriminate|].
  simpl in Hsum. destruct i as [|i]; simpl in Hi.
  - injection Hi as <-. lia.
  - apply (IH i); [lia|exact Hi].
Qed.

Lemma work_init {ex_state : Type} (progs : list (list call))
    (m : gmap N object) (x : ex_state) :
  work (init_world progs m x) = (6 * length (concat progs))%nat.
Proof.
  unfold work, init_world; cbn [threads].
  induction progs as [|prog progs IH]; [reflexivity|].
  cbn [map fmap list_fmap sum_list concat]. rewrite length_app.
  change (list_fmap _ _ thread_work (map (Thread Return) progs))
    with (thread_work <$> map (Thread Return) progs).
  rewrite IH. unfold thread_work, id; cbn [cur todo cmd_steps]. lia.
Qed.

Section Progress.

Context {ex_state : Type}.
Variable get_ex_new_index : ex_class → ex_args → ex_state → Z * ex_state.

(** X2. No call takes more than six steps and no schedule deadlocks.  At
    any point of any run the work left is at most six steps per call of
    the programs; a scheduled thread either waits, the world staying as
    it is, or uses up work; as long as work is left some thread can use
    some up; and when none is left every thread has returned from its
    last call and the lock is free. *)
Theorem every_move_counts
    (progs : list (list call)) (m : gmap N object) (x : ex_state)
    (sched : list nat) (w : world ex_state) :
  storage_ok progs m →
  run get_ex_new_index sched (init_world progs m x) = Some w →
  (work w ≤ 6 * length (concat progs))%nat
  ∧ (∀ i, ∃ w', step get_ex_new_index i w = Some w'
                ∧ (w' = w ∨ (work w' < work w)%nat))
  ∧ ((0 < work w)%nat →
     ∃ i w', step get_ex_new_index i w = Some w' ∧ (work w' < work w)%nat)
  ∧ (work w = 0%nat → finished w = true ∧ sIndexLock_ w = None).
Proof.
  intros Hok Hrun. set (P := λ c, c ∈ concat progs).
  pose proof (init_inv progs m x Hok) as Hinv0. fold P in Hinv0.
  assert (owner_ok (init_world progs m x)) as Hown0 by (intros i [=]).
  destruct (run_work get_ex_new_index P sched _ w Hinv0 Hown0 Hrun)
    as (Hinv & Hown & Hle).
  rewrite work_init in Hle. split; [exact Hle|]. split; [|split].
  - intros i.
    destruct (step_trans get_ex_new_index P w i Hinv) as (w' & Hstep & Htr).
    exists w'. split; [exact Hstep|]. now apply (trans_work get_ex_new_index P w w' i).
  - intros Hpos. unfold work in Hpos.
    apply sum_list_positive in Hpos as (j & n & Hj & Hn).
    apply list_lookup_fmap_Some in Hj as (tj & -> & Htj).
    destruct (sIndexLock_ w) as [i|] eqn:Hlock.
    + destruct (Hown i Hlock) as [t Ht]. exists i.
      apply (step_enabled get_ex_new_index P w i t Hinv Ht). now left.
    + exists j.
      apply (step_enabled get_ex_new_index P w j tj Hinv Htj). now right.
  - intros Hzero.
    assert (∀ i t, threads w !! i = Some t → cur t = Return ∧ todo t = [])
      as Hdone.
    { intros i t Ht.
      assert (thread_work t = 0%nat) as Hw.
      { apply (sum_list_zero (thread_work <$> threads w) i); [exact Hzero|].
        now rewrite list_lookup_fmap, Ht. }
      unfold thread_work in Hw. split.
      - apply cmd_steps_zero. lia.
      - destruct (todo t); [reflexivity|simpl in Hw; lia]. }
    split.
    + unfold finished. apply forallb_forall. intros t Ht.
      apply list_elem_of_In, list_elem_of_lookup in Ht as [i Hi].
      destruct (Hdone i t Hi) as [Hc Ht']. unfold thread_finished.
      now rewrite Hc, Ht'.
    + destruct (sIndexLock_ w) as [i|] eqn:Hlock; [|reflexivity].
      exfalso. destruct (Hown i Hlock) as [t Ht].
      destruct (Hdone i t Ht) as [Hc _].
      destruct Hinv as [Hthreads _].
      destruct (Hthreads i t Ht) as (ps & Hcur & _ & Hcs & _).
      assert (in_cs ps = true) as Hin by now apply Hcs.
      rewrite Hc in Hcur. destruct ps; try discriminate.
Qed.

End Progress.

Section SequenceFacts.

Context {ex_state : Type}.
Variable get_ex_new_index : ex_class → ex_args → ex_state → Z * ex_state.

Implicit Types (w : world ex_state).

(** A call that finds an index in the storage returns the world it was
    given. *)
Lemma exec_call_index i (c : call) w :
  sIndexLock_ w = None → holds_index (wmem w) (call_ptr c) →
  exec get_ex_new_index i (call_code c) w = Returned w.
Proof.
  intros Hlock (v & Hv & Hpos).
  rewrite (exec_call get_ex_new_index i c w v Hlock Hv).
  assert ((v <? 0) = false) as -> by now apply Z.ltb_ge.
  destruct w; simpl in *. now subst.
Qed.

Lemma exec_calls_index (cs : list (nat * call)) (p : addr) w :
  sIndexLock_ w = None → holds_index (wmem w) p →
  Forall (λ ic, call_ptr ic.2 = p) cs →
  exec_calls get_ex_new_index cs w = Returned w.
Proof.
  intros Hlock Hidx Hall. induction Hall as [|[i c] cs Hc _ IH]; [reflexivity|].
  simpl in Hc. cbn [exec_calls].
  rewrite exec_call_index; [exact IH|exact Hlock|now rewrite Hc].
Qed.

(** X5. Once a call has put an index in the storage, further calls on
    that storage, by any thread and through any of the three functions,
    return the world as they found it: the check looks at the storage
    only, not at the kind of index asked for. *)
Theorem redundant_calls_change_nothing
    i (c : call) (cs : list (nat * call)) w (v r : Z) (x : ex_state) :
  sIndexLock_ w = None →
  wmem w !! call_ptr c = Some (ObjInt v) → v < 0 →
  get_ex_new_index (call_class c) (call_args c) (ex w) = (r, x) → 0 ≤ r →
  Forall (λ jc, call_ptr jc.2 = call_ptr c) cs →
  ∃ w1,
    exec get_ex_new_index i (call_code c) w = Returned w1
    ∧ wmem w1 !! call_ptr c = Some (ObjInt r)
    ∧ calls_log w1 = calls_log w ++ [ExEvent i (call_class c) r]
    ∧ exec_calls get_ex_new_index ((i, c) :: cs) w = Returned w1.
Proof.
  intros Hlock Hv Hneg Hget Hr Hall.
  assert ((v <? 0) = true) as Hvb by now apply Z.ltb_lt.
  pose proof (exec_call get_ex_new_index i c w v Hlock Hv) as Hexec.
  rewrite Hvb, Hget in Hexec. cbn [fst snd] in Hexec.
  eexists. split; [exact Hexec|]. cbn [wmem calls_log].
  split; [apply lookup_insert_eq|]. split; [reflexivity|].
  cbn [exec_calls]. rewrite Hexec.
  apply (exec_calls_index cs (call_ptr c)); [reflexivity| |exact Hall].
  exists r. cbn [wmem]. split; [apply lookup_insert_eq|exact Hr].
Qed.

End SequenceFacts.

Section SteadyState.

Context {ex_state : Type}.
Variable get_ex_new_index : ex_class → ex_args → ex_state → Z * ex_state.
Variable P : call → Prop.

Implicit Types (w : world ex_state).

Local Abbreviation moves := (trans get_ex_new_index P).


Lemma trans_steady w w' i :
  all_indexed P w → moves i w w' →
  wmem w' = wmem w ∧ ex w' = ex w ∧ calls_log w' = calls_log w.
Proof.
  intros Hall Htr.
  destruct Htr as [| | | | |t c r x Ht Hcur Hlock HP Hneg Hget
                   |t c r Ht Hcur Hlock HP Hneg|]; try (repeat split; done);
    exfalso; apply Forall_cons in HP as [HPc _];
    (apply (negative_not_index (wmem w) (call_ptr c));
       [exact Hneg|now apply Hall]).
Qed.

Lemma run_steady sched w w' :
  inv P w → all_indexed P w →
  run get_ex_new_index sched w = Some w' →
  wmem w' = wmem w ∧ ex w' = ex w ∧ calls_log w' = calls_log w.
Proof.
  revert w. induction sched as [|i sched IH]; intros w Hinv Hall; simpl.
  - now intros [= <-].
  - destruct (step_trans get_ex_new_index P w i Hinv) as (w1 & -> & Htr).
    destruct (trans_steady w w1 i Hall Htr) as (Hm & Hx & Hl).
    intros Hrun. destruct (IH w1) as (Hm' & Hx' & Hl'); [| |exact Hrun|].
    + now apply (trans_inv get_ex_new_index P w _ i).
    + intros c HPc. rewrite Hm. now apply Hall.
    + rewrite Hm', Hx', Hl'. repeat split; assumption.
Qed.


Lemma trans_provenance m w w' i :
  inv P w → provenance P m w → moves i w w' → provenance P m w'.
Proof.
  intros Hinv [Hframe Hdom Hvalue Hpending] Htr.
  assert (∀ t1 w1 (Hth : threads w1 = threads w)
            (Hlog : ∀ r, answered w r → answered w1 r)
            (Hnew : ∀ a r, cur t1 = store_part a r → answered w1 r),
            ∀ j tj a r, threads (set_thread i t1 w1) !! j = Some tj →
                        cur tj = store_part a r →
                        answered (set_thread i t1 w1) r) as Hpend.
  { intros t1 w1 Hth Hlog Hnew j tj a r Hj Hcur.
    unfold set_thread in Hj; cbn [threads] in Hj.
    apply list_lookup_insert_Some in Hj as [(-> & <- & _)|(Hne & Hj)].
    - now apply (Hnew a r).
    - rewrite Hth in Hj. apply Hlog. now apply (Hpending j tj a r). }
  destruct Htr as [|t c rest Ht Hcur Htodo Hlock HP
                   |t c Ht Hcur Hlock HP
                   |t c v Ht Hcur Hlock HP Hv Hneg
                   |t c v Ht Hcur Hlock HP Hv Hpos
                   |t c r x Ht Hcur Hlock HP Hneg Hget
                   |t c r Ht Hcur Hlock HP Hneg
                   |t Ht Hcur Hlock HP].
  - now split.
  - split; try done. apply Hpend; try done.
    intros a r. cbn [cur]. simpl. rewrite call_code_parts. discriminate.
  - split; try done. apply Hpend; try done.
  - split; try done. apply Hpend; try done.
  - split; try done. apply Hpend; try done.
  - assert (∀ r', answered w r' →
              answered (set_ex x (ExEvent i (call_class c) r) w) r') as Hlog.
    { intros r' (e & He & Hr). exists e. split; [|exact Hr].
      cbn [calls_log set_ex]. apply elem_of_app. now left. }
    split; try done.
    + intros a v Hav. destruct (Hvalue a v Hav) as [?|?]; [now left|right].
      now apply Hlog.
    + apply Hpend; try done.
      intros a r'. cbn [cur]. simpl. unfold store_part. intros [= _ <-].
      exists (ExEvent i (call_class c) r). split; [|reflexivity].
      cbn [calls_log set_ex]. apply elem_of_app. right. left.
  - apply Forall_cons in HP as [HPc _]. split.
    + intros a Ha. cbn [wmem set_thread set_mem].
      rewrite lookup_insert_ne; [now apply Hframe|]. intros <-. now apply (Ha c).
    + cbn [wmem set_thread set_mem]. rewrite dom_insert_L.
      destruct Hneg as (v & Hv & _).
      rewrite <- Hdom. apply subseteq_union_1_L, singleton_subseteq_l.
      apply elem_of_dom. now exists (ObjInt v).
    + intros a v. cbn [wmem set_thread set_mem].
      destruct (decide (call_ptr c = a)) as [<-|Hne].
      * rewrite lookup_insert_eq. intros [= <-]. right.
        now apply (Hpending i t (call_ptr c) r).
      * rewrite lookup_insert_ne by exact Hne. apply Hvalue.
    + apply Hpend; try done.
  - split; try done. apply Hpend; try done.
Qed.

Lemma run_provenance m sched w w' :
  inv P w → provenance P m w →
  run get_ex_new_index sched w = Some w' → provenance P m w'.
Proof.
  revert w. induction sched as [|i sched IH]; intros w Hinv Hprov; simpl.
  - now intros [= <-].
  - destruct (step_trans get_ex_new_index P w i Hinv) as (w1 & -> & Htr).
    apply IH; [now apply (trans_inv get_ex_new_index P w _ i)|].
    now apply (trans_provenance m w w1 i).
Qed.

End SteadyState.

Section RunFacts.

Context {ex_state : Type}.
Variable get_ex_new_index : ex_class → ex_args → ex_state → Z * ex_state.

(** X3. From a point of a run where every storage named by the programs
    holds an index, whatever the threads go on to do leaves the memory,
    the facility and the record of its answers as they are. *)
Theorem indexed_storage_is_steady
    (progs : list (list call)) (m : gmap N object) (x : ex_state)
    (sched sched' : list nat) (w w' : world ex_state) :
  storage_ok progs m →
  run get_ex_new_index sched (init_world progs m x) = Some w →
  (∀ c, c ∈ concat progs → holds_index (wmem w) (call_ptr c)) →
  run get_ex_new_index sched' w = Some w' →
  wmem w' = wmem w ∧ ex w' = ex w ∧ calls_log w' = calls_log w.
Proof.
  intros Hok Hrun Hall Hrun'. set (P := λ c, c ∈ concat progs).
  pose proof (init_inv progs m x Hok) as Hinv0. fold P in Hinv0.
  destruct (run_inv get_ex_new_index P sched _ Hinv0) as (w0 & Hrun0 & Hinv & _).
  rewrite Hrun in Hrun0. injection Hrun0 as <-.
  now apply (run_steady get_ex_new_index P sched' w w').
Qed.

(** X4. A run writes nowhere but to the storage its calls name, creates
    and removes no object, and every [int] in memory is the one that was
    there at the start or an answer of the facility. *)
Theorem run_writes_only_answers
    (progs : list (list call)) (m : gmap N object) (x : ex_state)
    (sched : list nat) (w : world ex_state) :
  storage_ok progs m →
  run get_ex_new_index sched (init_world progs m x) = Some w →
  (∀ a, (∀ c, c ∈ concat progs → call_ptr c ≠ a) → wmem w !! a = m !! a)
  ∧ dom (wmem w) = dom m
  ∧ (∀ a v, wmem w !! a = Some (ObjInt v) →
            m !! a = Some (ObjInt v)
            ∨ ∃ e, e ∈ calls_log w ∧ ev_result e = v).
Proof.
  intros Hok Hrun. set (P := λ c, c ∈ concat progs).
  pose proof (init_inv progs m x Hok) as Hinv0. fold P in Hinv0.
  assert (provenance P m (init_world progs m x)) as Hprov0.
  { split; try done.
    - intros a v Hav. now left.
    - intros i t a r Ht Hcur. unfold init_world in Ht; cbn [threads] in Ht.
      apply list_lookup_fmap_Some in Ht as (prog & -> & _). discriminate. }
  destruct (run_provenance get_ex_new_index P m sched _ w Hinv0 Hprov0 Hrun)
    as [Hframe Hdom Hvalue _].
  split; [exact Hframe|]. split; [exact Hdom|exact Hvalue].
Qed.

End RunFacts.

Lemma not_before_alloc_return (c : call) : ¬ before_alloc c Return.
Proof.
  intros [H|[H|H]]; simpl in H; try discriminate.
  rewrite call_code_parts in H. discriminate.
Qed.

Lemma not_before_alloc_store (c : call) (a : addr) (r : Z) :
  ¬ before_alloc c (store_part a r).
Proof.
  intros [H|[H|H]]; simpl in H; try discriminate.
  rewrite call_code_parts in H. discriminate.
Qed.

Lemma not_before_alloc_unlock (c : call) : ¬ before_alloc c (Unlock Return).
Proof.
  intros [H|[H|H]]; simpl in H; try discriminate.
  rewrite call_code_parts in H. discriminate.
Qed.

(** Codes that agree at the check agree on class and storage. *)
Lemma check_part_inj (c c' : call) :
  code_at (AtCheck c) = code_at (AtCheck c') →
  code_at (AtAlloc c) = code_at (AtAlloc c')
  ∧ call_class c = call_class c' ∧ call_ptr c = call_ptr c'.
Proof.
  simpl. unfold check_part. intros H.
  assert (call_ptr c = call_ptr c') as Hp by now injection H.
  assert (alloc_part (call_class c) (call_args c) (call_ptr c)
          = alloc_part (call_class c') (call_args c') (call_ptr c')) as Ha.
  { apply (f_equal (λ k, match k with LoadInt _ k' => k' (-1) | _ => Return end))
      in H. exact H. }
  split; [exact Ha|]. split; [|exact Hp]. unfold alloc_part in Ha.
  now injection Ha.
Qed.

Lemma before_alloc_entry (c c' : call) :
  before_alloc c' (code_at (AtEntry c)) → before_alloc c' (code_at (AtCheck c)).
Proof.
  intros [H|[H|H]]; simpl in H; rewrite ?call_code_parts in H;
    try discriminate.
  right; left.
  apply (f_equal (λ k, match k with LockGuard k' => k' | _ => Return end)) in H.
  exact H.
Qed.

Lemma before_alloc_check (c c' : call) :
  before_alloc c' (code_at (AtCheck c)) →
  before_alloc c' (code_at (AtAlloc c))
  ∧ call_class c = call_class c' ∧ call_ptr c = call_ptr c'.
Proof.
  intros [H|[H|H]].
  - simpl in H. rewrite call_code_parts in H. discriminate.
  - destruct (check_part_inj c c' H) as (Ha & Hc & Hp).
    split; [|now split]. right; right. exact Ha.
  - simpl in H. discriminate.
Qed.

Lemma before_alloc_alloc (c c' : call) :
  before_alloc c' (code_at (AtAlloc c)) → call_class c = call_class c'.
Proof.
  intros [H|[H|H]]; simpl in H; rewrite ?call_code_parts in H;
    try discriminate.
  unfold alloc_part in H. now injection H.
Qed.

Lemma invocations_all_granted (cl : ex_class) (log : list ex_event) :
  (∀ e, e ∈ log → ev_class e = cl → 0 ≤ ev_result e) →
  grants cl log = invocations cl log.
Proof.
  induction log as [|e log IH] using rev_ind; intros Hall; [reflexivity|].
  rewrite grants_snoc, invocations_snoc. rewrite IH.
  - unfold is_grant, is_invocation. case_bool_decide as Hcl; [|reflexivity].
    simpl. assert (0 ≤ ev_result e) as Hr.
    { apply Hall; [|exact Hcl]. apply elem_of_app. right. left. }
    apply Z.leb_le in Hr. now rewrite Hr.
  - intros e' He'. apply Hall. apply elem_of_app. now left.
Qed.

Section HistoryFacts.

Context {ex_state : Type}.
Variable get_ex_new_index : ex_class → ex_args → ex_state → Z * ex_state.
Variables (progs : list (list call)) (cl : ex_class) (p : addr).

Implicit Types (w : world ex_state) (t : thread) (i j : nat).

Local Abbreviation P := (λ c : call, c ∈ concat progs).
Local Abbreviation moves := (trans get_ex_new_index P).

Hypothesis single : ∀ c, c ∈ concat progs → call_class c = cl → call_ptr c = p.
Hypothesis exclusive :
  ∀ c, c ∈ concat progs → call_ptr c = p → call_class c = cl.

(** The thread that moves is replaced; the others are as they were. *)
Lemma tracked_update w w1 i t t1 :
  tracked progs cl w →
  threads w1 = threads w → threads w !! i = Some t →
  (∀ prog started,
     progs !! i = Some prog → prog = started ++ todo t →
     Forall (λ c, call_class c ≠ cl) started
     ∨ (∃ s' c, started = s' ++ [c] ∧ call_class c = cl
                ∧ before_alloc c (cur t)) →
     ∃ started1,
       prog = started1 ++ todo t1
       ∧ (Forall (λ c, call_class c ≠ cl) started1
          ∨ ∃ s' c, started1 = s' ++ [c] ∧ call_class c = cl
                    ∧ before_alloc c (cur t1))) →
  tracked progs cl (set_thread i t1 w1).
Proof.
  intros Htr Hth Ht Hnew j tj prog Hj Hprog.
  unfold set_thread in Hj; cbn [threads] in Hj.
  apply list_lookup_insert_Some in Hj as [(-> & <- & _)|(Hne & Hj)].
  - destruct (Htr j t prog Ht Hprog) as (started & Heq & Hcase).
    now apply (Hnew prog started).
  - rewrite Hth in Hj. now apply (Htr j tj prog).
Qed.

Lemma pending_update w w1 i t t1 :
  (∀ j tj r, threads w !! j = Some tj → cur tj = store_part p r →
             (1 ≤ invocations cl (calls_log w))%nat) →
  threads w1 = threads w →
  (invocations cl (calls_log w) ≤ invocations cl (calls_log w1))%nat →
  (∀ r, cur t1 = store_part p r → (1 ≤ invocations cl (calls_log w1))%nat) →
  ∀ j tj r, threads (set_thread i t1 w1) !! j = Some tj →
            cur tj = store_part p r →
            (1 ≤ invocations cl (calls_log (set_thread i t1 w1)))%nat.
Proof.
  intros Hpend Hth Hlog Hnew j tj r Hj Hcur.
  unfold set_thread in Hj; cbn [threads] in Hj. cbn [calls_log set_thread].
  apply list_lookup_insert_Some in Hj as [(-> & <- & _)|(Hne & Hj)].
  - now apply (Hnew r).
  - rewrite Hth in Hj. pose proof (Hpend j tj r Hj Hcur). lia.
Qed.

Lemma trans_history w w' i :
  inv P w → history progs cl p w → moves i w w' → history progs cl p w'.
Proof.
  intros Hinv [Hlen Hpend Hnegp Htracked] Htr.
  destruct Htr as [|t c rest Ht Hcur Htodo Hlock HP
                   |t c Ht Hcur Hlock HP
                   |t c v Ht Hcur Hlock HP Hv Hneg
                   |t c v Ht Hcur Hlock HP Hv Hpos
                   |t c r x Ht Hcur Hlock HP Hneg Hget
                   |t c r Ht Hcur Hlock HP Hneg
                   |t Ht Hcur Hlock HP].
  - now split.
  - (* the thread starts its next call *)
    split; cbn [wmem calls_log set_thread].
    + cbn [threads set_thread set_lock set_mem set_ex].
      now rewrite length_insert.
    + apply (pending_update w w i t); try done.
      intros r. cbn [cur]. simpl. rewrite call_code_parts. discriminate.
    + exact Hnegp.
    + intros Hzero. apply (tracked_update w w i t); try done; [now apply Htracked|].
      intros prog started Hprog Heq Hcase. exists (started ++ [c]).
      cbn [todo cur]. split.
      { rewrite Heq, Htodo. now rewrite <- app_assoc. }
      destruct Hcase as [Hnone|(s' & c' & _ & _ & Hb)].
      * destruct (decide (call_class c = cl)) as [Hcl|Hncl].
        -- right. exists started, c. split; [reflexivity|]. split; [exact Hcl|].
           now left.
        -- left. apply Forall_app. split; [exact Hnone|]. now constructor.
      * rewrite Hcur in Hb. now apply not_before_alloc_return in Hb.
  - (* it takes the lock *)
    split; cbn [wmem calls_log set_thread set_lock].
    + cbn [threads set_thread set_lock set_mem set_ex].
      now rewrite length_insert.
    + apply (pending_update w (set_lock (Some i) w) i t); try done.
    + exact Hnegp.
    + intros Hzero.
      apply (tracked_update w (set_lock (Some i) w) i t); try done;
        [now apply Htracked|].
      intros prog started Hprog Heq Hcase. exists started. split; [exact Heq|].
      destruct Hcase as [Hnone|(s' & c' & Hs & Hcl & Hb)]; [now left|right].
      exists s', c'. split; [exact Hs|]. split; [exact Hcl|].
      cbn [cur]. apply before_alloc_entry. now rewrite <- Hcur.
  - (* it finds the storage negative *)
    split; cbn [wmem calls_log set_thread].
    + cbn [threads set_thread set_lock set_mem set_ex].
      now rewrite length_insert.
    + apply (pending_update w w i t); try done.
    + exact Hnegp.
    + intros Hzero. apply (tracked_update w w i t); try done; [now apply Htracked|].
      intros prog started Hprog Heq Hcase. exists started. split; [exact Heq|].
      destruct Hcase as [Hnone|(s' & c' & Hs & Hcl & Hb)]; [now left|right].
      exists s', c'. split; [exact Hs|]. split; [exact Hcl|].
      cbn [cur]. rewrite Hcur in Hb. now apply before_alloc_check in Hb.
  - (* it finds an index in the storage *)
    split; cbn [wmem calls_log set_thread].
    + cbn [threads set_thread set_lock set_mem set_ex].
      now rewrite length_insert.
    + apply (pending_update w w i t); try done.
    + exact Hnegp.
    + intros Hzero. apply (tracked_update w w i t); try done; [now apply Htracked|].
      intros prog started Hprog Heq Hcase. exists started. split; [exact Heq|].
      destruct Hcase as [Hnone|(s' & c' & Hs & Hcl & Hb)]; [now left|exfalso].
      rewrite Hcur in Hb. apply before_alloc_check in Hb as (_ & Hc & _).
      apply Forall_cons in HP as [HPc _].
      apply (negative_not_index (wmem w) p); [now apply Hnegp|].
      rewrite <- (single c HPc); [now exists v|congruence].
  - (* it asks the facility *)
    apply Forall_cons in HP as [HPc _].
    assert (invocations cl (calls_log w ++ [ExEvent i (call_class c) r])
            = (invocations cl (calls_log w)
               + if bool_decide (call_class c = cl) then 1 else 0)%nat) as Hinv'
      by (now rewrite invocations_snoc).
    split; cbn [wmem calls_log set_thread set_ex].
    + cbn [threads set_thread set_lock set_mem set_ex].
      now rewrite length_insert.
    + apply (pending_update w (set_ex x (ExEvent i (call_class c) r) w) i t);
        try done; cbn [calls_log set_ex]; rewrite Hinv'; [lia|].
      intros r'. cbn [cur]. simpl. unfold store_part. intros [= Hp _].
      rewrite bool_decide_eq_true_2 by now apply exclusive. lia.
    + rewrite Hinv'. intros Hzero. apply Hnegp. lia.
    + rewrite Hinv'. intros Hzero.
      assert (call_class c ≠ cl) as Hncl.
      { intros Hcl. rewrite bool_decide_eq_true_2 in Hzero by exact Hcl. lia. }
      apply (tracked_update w (set_ex x (ExEvent i (call_class c) r) w) i t);
        try done; [apply Htracked; lia|].
      intros prog started Hprog Heq Hcase. exists started. split; [exact Heq|].
      destruct Hcase as [Hnone|(s' & c' & Hs & Hcl & Hb)]; [now left|exfalso].
      rewrite Hcur in Hb. apply before_alloc_alloc in Hb. congruence.
  - (* it writes the answer *)
    split; cbn [wmem calls_log set_thread set_mem].
    + cbn [threads set_thread set_lock set_mem set_ex].
      now rewrite length_insert.
    + apply (pending_update w (set_mem (<[call_ptr c:=ObjInt r]> (wmem w)) w) i t);
        try done.
    + intros Hzero. destruct (decide (call_ptr c = p)) as [Hp|Hne].
      * exfalso. pose proof (Hpend i t r Ht) as H1.
        rewrite Hcur in H1. simpl in H1. rewrite Hp in H1.
        specialize (H1 eq_refl). lia.
      * destruct (Hnegp Hzero) as (v & Hv & Hlt). exists v.
        split; [|exact Hlt]. now rewrite lookup_insert_ne.
    + intros Hzero.
      apply (tracked_update w (set_mem (<[call_ptr c:=ObjInt r]> (wmem w)) w) i t);
        try done; [now apply Htracked|].
      intros prog started Hprog Heq Hcase. exists started. split; [exact Heq|].
      destruct Hcase as [Hnone|(s' & c' & Hs & Hcl & Hb)]; [now left|exfalso].
      rewrite Hcur in Hb. now apply not_before_alloc_store in Hb.
  - (* it gives the lock back *)
    split; cbn [wmem calls_log set_thread set_lock].
    + cbn [threads set_thread set_lock set_mem set_ex].
      now rewrite length_insert.
    + apply (pending_update w (set_lock None w) i t); try done.
    + exact Hnegp.
    + intros Hzero.
      apply (tracked_update w (set_lock None w) i t); try done;
        [now apply Htracked|].
      intros prog started Hprog Heq Hcase. exists started. split; [exact Heq|].
      destruct Hcase as [Hnone|(s' & c' & Hs & Hcl & Hb)]; [now left|exfalso].
      rewrite Hcur in Hb. now apply not_before_alloc_unlock in Hb.
Qed.

Lemma run_history sched w w' :
  inv P w → history progs cl p w →
  run get_ex_new_index sched w = Some w' → history progs cl p w'.
Proof.
  revert w. induction sched as [|i sched IH]; intros w Hinv Hh; simpl.
  - now intros [= <-].
  - destruct (step_trans get_ex_new_index P w i Hinv) as (w1 & -> & Htr).
    apply IH; [now apply (trans_inv get_ex_new_index P w _ i)|].
    now apply (trans_history w w1 i).
Qed.

Hypothesis never_fails : ∀ a x, 0 ≤ (get_ex_new_index cl a x).1.

Lemma trans_all_granted w w' i :
  all_granted cl w → moves i w w' → all_granted cl w'.
Proof.
  intros Hall Htr.
  destruct Htr as [| | | | |t c r x Ht Hcur Hlock HP Hneg Hget| |];
    try exact Hall.
  intros e He Hcl. cbn [calls_log set_thread set_ex] in He.
  apply elem_of_app in He as [He|He]; [now apply Hall|].
  apply list_elem_of_singleton in He as ->. cbn in Hcl |- *.
  pose proof (never_fails (call_args c) (ex w)) as Hnf.
  rewrite <- Hcl in Hnf. now rewrite Hget in Hnf.
Qed.

Lemma run_all_granted sched w w' :
  inv P w → all_granted cl w →
  run get_ex_new_index sched w = Some w' → all_granted cl w'.
Proof.
  revert w. induction sched as [|i sched IH]; intros w Hinv Hh; simpl.
  - now intros [= <-].
  - destruct (step_trans get_ex_new_index P w i Hinv) as (w1 & -> & Htr).
    apply IH; [now apply (trans_inv get_ex_new_index P w _ i)|].
    now apply (trans_all_granted w w1 i).
Qed.

End HistoryFacts.

Lemma grants_positive (cl : ex_class) (log : list ex_event) :
  (1 ≤ grants cl log)%nat → ∃ e, e ∈ log ∧ is_grant cl e = true.
Proof.
  unfold grants. intros Hpos.
  destruct (filter (λ e, is_grant cl e = true) log) as [|e l] eqn:Hf;
    [simpl in Hpos; lia|].
  assert (e ∈ filter (λ e, is_grant cl e = true) log) as Hin
    by (rewrite Hf; left).
  apply list_elem_of_filter in Hin as [Hge He]. now exists e.
Qed.

Lemma finished_threads {ex_state : Type} (w : world ex_state) (i : nat)
    (t : thread) :
  finished w = true → threads w !! i = Some t →
  cur t = Return ∧ todo t = [].
Proof.
  unfold finished. intros Hall Ht.
  assert (thread_finished t = true) as Hf.
  { apply (proj1 (forallb_forall _ _) Hall).
    apply list_elem_of_In, list_elem_of_lookup. now exists i. }
  unfold thread_finished in Hf.
  destruct (cur t); try discriminate. now destruct (todo t).
Qed.

Lemma finished_unlocked {ex_state : Type} (P : call → Prop)
    (w : world ex_state) :
  inv P w → owner_ok w → finished w = true → sIndexLock_ w = None.
Proof.
  intros [Hthreads _] Hown Hfin.
  destruct (sIndexLock_ w) as [i|] eqn:Hlock; [|reflexivity].
  exfalso. destruct (Hown i Hlock) as [t Ht].
  destruct (finished_threads w i t Hfin Ht) as [Hc _].
  destruct (Hthreads i t Ht) as (ps & Hcur & _ & Hcs & _).
  assert (in_cs ps = true) as Hin by now apply Hcs.
  rewrite Hc in Hcur. destruct ps; discriminate.
Qed.

Section ExactlyOnce.

Context {ex_state : Type}.
Variable get_ex_new_index : ex_class → ex_args → ex_state → Z * ex_state.

Lemma init_history (progs : list (list call)) (cl : ex_class) (p : addr)
    (m : gmap N object) (x : ex_state) :
  holds_negative m p → history progs cl p (init_world progs m x).
Proof.
  intros Hneg. split; cbn [init_world threads calls_log wmem].
  - apply length_map.
  - intros i t r Ht. apply list_lookup_fmap_Some in Ht as (prog & -> & _).
    discriminate.
  - intros _. exact Hneg.
  - intros _ i t prog Ht Hprog.
    apply list_lookup_fmap_Some in Ht as (prog' & -> & Hprog').
    rewrite Hprog in Hprog'. injection Hprog' as <-.
    exists []. split; [reflexivity|]. now left.
Qed.

(** X1. Let the calls for a class all name one storage, used by no call
    for another class and negative at the start, and let the programs
    hold such a call.  When every thread has returned from its last
    call, under any schedule, the lock is free and the facility has been
    asked for the class at least once; if it never answers that class
    with a negative value, it has been asked exactly once, has handed
    out exactly one index, and the storage holds that index. *)
Theorem exactly_one_allocation
    (progs : list (list call)) (m : gmap N object) (x : ex_state)
    (sched : list nat) (w : world ex_state) (cl : ex_class) (p : addr) :
  storage_ok progs m →
  single_storage progs cl p →
  (∀ c, c ∈ concat progs → call_ptr c = p → call_class c = cl) →
  holds_negative m p →
  (∃ c, c ∈ concat progs ∧ call_class c = cl) →
  run get_ex_new_index sched (init_world progs m x) = Some w →
  finished w = true →
  sIndexLock_ w = None
  ∧ (1 ≤ invocations cl (calls_log w))%nat
  ∧ ((∀ a x', 0 ≤ (get_ex_new_index cl a x').1) →
     invocations cl (calls_log w) = 1%nat
     ∧ grants cl (calls_log w) = 1%nat
     ∧ ∃ e, e ∈ calls_log w ∧ ev_class e = cl
            ∧ wmem w !! p = Some (ObjInt (ev_result e))).
Proof.
  intros Hok Hsingle Hexcl Hneg (c0 & Hc0 & Hcl0) Hrun Hfin.
  set (P := λ c, c ∈ concat progs).
  pose proof (init_inv progs m x Hok) as Hinv0. fold P in Hinv0.
  assert (owner_ok (init_world progs m x)) as Hown0 by (intros i [=]).
  destruct (run_work get_ex_new_index P sched _ w Hinv0 Hown0 Hrun)
    as (Hinv & Hown & _).
  pose proof (run_history get_ex_new_index progs cl p Hsingle Hexcl sched _ w
                Hinv0 (init_history progs cl p m x Hneg) Hrun)
    as [Hlen _ _ Htracked].
  pose proof (finished_unlocked P w Hinv Hown Hfin) as Hfree.
  assert (1 ≤ invocations cl (calls_log w))%nat as Hasked.
  { destruct (invocations cl (calls_log w)) as [|n] eqn:Hz; [|lia].
    exfalso. specialize (Htracked eq_refl).
    apply list_elem_of_In, in_concat in Hc0 as (prog & Hprog & Hin).
    apply list_elem_of_In, list_elem_of_lookup in Hprog as [i Hi].
    assert (is_Some (threads w !! i)) as [t Ht].
    { apply lookup_lt_is_Some. rewrite Hlen. now apply lookup_lt_Some in Hi. }
    destruct (finished_threads w i t Hfin Ht) as [Hcur Htodo].
    destruct (Htracked i t prog Ht Hi) as (started & Heq & Hcase).
    rewrite Htodo, app_nil_r in Heq. subst started.
    destruct Hcase as [Hnone|(s' & c & _ & _ & Hb)].
    - apply list_elem_of_In in Hin.
      now apply (proj1 (Forall_forall _ _) Hnone c0 Hin).
    - rewrite Hcur in Hb. now apply not_before_alloc_return in Hb. }
  split; [exact Hfree|]. split; [exact Hasked|].
  intros Hnf.
  assert (all_granted cl w) as Hall.
  { apply (run_all_granted get_ex_new_index progs cl Hnf sched
             (init_world progs m x) w Hinv0); [|exact Hrun].
    intros e He. now apply elem_of_nil in He. }
  assert (counted cl p w) as Hcounted.
  { apply (run_counted get_ex_new_index P cl p Hsingle sched
             (init_world progs m x)); [done| |done].
    apply init_counted. }
  pose proof (invocations_all_granted cl (calls_log w) Hall) as Heq.
  pose proof (counted_once cl p w Hcounted) as Hone.
  split; [lia|]. split; [lia|].
  destruct (grants_positive cl (calls_log w)) as (e & He & Hge); [lia|].
  exists e. split; [exact He|].
  split; [now apply is_grant_true in Hge as [? _]|].
  now apply (counted_unlocked P cl p w e).
Qed.

End ExactlyOnce.

Lemma example_storage_ok : storage_ok example_progs example_storage.
Proof.
  intros c Hc. unfold example_progs in Hc. simpl in Hc.
  repeat (apply elem_of_cons in Hc as [->|Hc]);
    try (now apply elem_of_nil in Hc);
    [exists (-1)|exists (-1)|exists (-1)|exists 7]; reflexivity.
Qed.

Lemma example_ctx_storage :
  single_storage example_progs CRYPTO_EX_INDEX_SSL_CTX 8%N
  ∧ ∀ c, c ∈ concat example_progs → call_ptr c = 8%N →
         call_class c = CRYPTO_EX_INDEX_SSL_CTX.
Proof.
  split; intros c Hc; unfold example_progs in Hc; simpl in Hc;
    repeat (apply elem_of_cons in Hc as [->|Hc]);
    try (now apply elem_of_nil in Hc); try reflexivity; discriminate.
Qed.

Lemma free_same_pointer_twice_undefined_witness :
  free_each 0%N 0%N 0 0 0%N [3%N; 2%N; nullptr; 2%N] example_state = None.
Proof.
  apply (free_same_pointer_twice_undefined 0%N 0%N 0%N 0 0
           [3%N] [nullptr] [] 2%N example_state).
  discriminate.
Defined.

Lemma free_order_irrelevant_witness :
  ∃ st1 st2,
    free_each 0%N 0%N 0 0 0%N [2%N; nullptr; 3%N] example_state
      = Some (tt, st1)
    ∧ free_each 0%N 0%N 0 0 0%N [3%N; 2%N; nullptr] example_state
        = Some (tt, st2)
    ∧ mem st1 = mem st2.
Proof.
  destruct (free_order_irrelevant 0%N 0%N 0%N 0 0
              [2%N; nullptr; 3%N] [3%N; 2%N; nullptr] example_state)
    as (st1 & st2 & H1 & H2 & Hmem & _).
  - apply (bool_decide_unpack _). vm_compute. exact I.
  - intros p Hp. vm_compute in Hp.
    apply elem_of_cons in Hp as [->|Hp]; [now exists "abc"%string|].
    apply elem_of_cons in Hp as [->|Hp]; [now exists "de"%string|].
    now apply elem_of_nil in Hp.
  - apply (bool_decide_unpack _). vm_compute. exact I.
  - exists st1, st2. repeat split; assumption.
Defined.

Lemma dup_then_free_both_witness :
  ∃ q st1 st2 st3,
    exDataStdStringDup bump_allocator 0%N 0%N 1%N 0 0 0%N example_state
      = Some (1, st1)
    ∧ exDataStdStringFree 0%N q 0%N 0 0 0%N st1 = Some (tt, st2)
    ∧ exDataStdStringFree 0%N 2%N 0%N 0 0 0%N st2 = Some (tt, st3)
    ∧ mem st3 = <[1%N := ObjPtr q]> (delete 2%N example_heap).
Proof.
  destruct (dup_then_free_both bump_allocator 0%N 0%N 0%N 0%N 0%N 0 0
              bump_allocator_fresh 1%N 2%N "abc" example_state)
    as (q & st1 & Hdup & _ & (st2 & st3 & Hf1 & _ & Hf2 & Hmem) & _).
  - reflexivity.
  - discriminate.
  - reflexivity.
  - exists q, st1, st2, st3. repeat split; assumption.
Defined.

Lemma redundant_calls_change_nothing_witness :
  ∃ w1,
    exec (bounded_facility 5) 0%nat (getSSLCtxExIndex 8%N)
      (init_world example_progs example_storage 0) = Returned w1
    ∧ exec_calls (bounded_facility 5)
        [(0%nat, CallSSLCtx 8%N); (1%nat, CallRSA 8%N);
         (2%nat, CallSSLSession 8%N); (1%nat, CallSSLCtx 8%N)]
        (init_world example_progs example_storage 0) = Returned w1.
Proof.
  destruct (redundant_calls_change_nothing (bounded_facility 5) 0%nat
              (CallSSLCtx 8%N)
              [(1%nat, CallRSA 8%N); (2%nat, CallSSLSession 8%N);
               (1%nat, CallSSLCtx 8%N)]
              (init_world example_progs example_storage 0) (-1) 0 1)
    as (w1 & Hexec & _ & _ & Hall).
  - reflexivity.
  - reflexivity.
  - lia.
  - reflexivity.
  - lia.
  - repeat constructor.
  - exists w1. split; assumption.
Defined.

Lemma every_move_counts_witness :
  ∃ w,
    run unbounded_facility (concat (replicate 6 [0; 1; 2]%nat))
      (init_world example_progs example_storage 0%N) = Some w
    ∧ (work w ≤ 24)%nat
    ∧ ∃ i w', step unbounded_facility i w = Some w' ∧ (work w' < work w)%nat.
Proof.
  destruct (run unbounded_facility (concat (replicate 6 [0; 1; 2]%nat))
              (init_world example_progs example_storage 0%N))
    as [w|] eqn:Hrun; [|vm_compute in Hrun; discriminate].
  exists w. split; [reflexivity|].
  destruct (every_move_counts unbounded_facility example_progs
              example_storage 0%N _ w example_storage_ok Hrun)
    as (Hle & _ & Hprogress & _).
  split; [exact Hle|]. apply Hprogress.
  revert Hrun. vm_compute. intros [= <-]. vm_compute. lia.
Defined.

Lemma indexed_storage_is_steady_witness :
  ∃ w w',
    run unbounded_facility (replicate 6 0%nat)
      (init_world example_progs example_storage 0%N) = Some w
    ∧ run unbounded_facility example_schedule w = Some w'
    ∧ finished w = false ∧ finished w' = true
    ∧ wmem w' = wmem w ∧ ex w' = ex w ∧ calls_log w' = calls_log w.
Proof.
  destruct (run unbounded_facility (replicate 6 0%nat)
              (init_world example_progs example_storage 0%N))
    as [w|] eqn:Hrun; [|vm_compute in Hrun; discriminate].
  pose proof Hrun as Hw. vm_compute in Hw. injection Hw as <-.
  match type of Hrun with _ = Some ?W =>
    destruct (run unbounded_facility example_schedule W) as [w'|] eqn:Hrun';
      [|vm_compute in Hrun'; discriminate];
    exists W, w'
  end.
  split; [exact Hrun|]. split; [exact Hrun'|].
  split; [reflexivity|].
  split; [revert Hrun'; vm_compute; intros [= <-]; reflexivity|].
  apply (indexed_storage_is_steady unbounded_facility example_progs
           example_storage 0%N (replicate 6 0%nat) example_schedule _ w'
           example_storage_ok Hrun); [|exact Hrun'].
  intros c Hc. unfold example_progs in Hc. simpl in Hc.
  repeat (apply elem_of_cons in Hc as [->|Hc]);
    try (now apply elem_of_nil in Hc);
    [exists 0|exists 0|exists 0|exists 7]; (split; [reflexivity|lia]).
Defined.

Lemma run_writes_only_answers_witness :
  ∃ w,
    run unbounded_facility example_schedule
      (init_world example_progs example_storage 0%N) = Some w
    ∧ wmem w !! 9%N = Some (ObjInt 7)
    ∧ dom (wmem w) = dom example_storage.
Proof.
  destruct (run unbounded_facility example_schedule
              (init_world example_progs example_storage 0%N))
    as [w|] eqn:Hrun; [|vm_compute in Hrun; discriminate].
  exists w. split; [reflexivity|].
  destruct (run_writes_only_answers unbounded_facility example_progs
              example_storage 0%N _ w example_storage_ok Hrun)
    as (_ & Hdom & Hvalue).
  split; [|exact Hdom].
  revert Hrun. vm_compute. intros [= <-]. reflexivity.
Defined.

Lemma exactly_one_allocation_witness :
  ∃ w,
    run unbounded_facility example_schedule
      (init_world example_progs example_storage 0%N) = Some w
    ∧ invocations CRYPTO_EX_INDEX_SSL_CTX (calls_log w) = 1%nat
    ∧ grants CRYPTO_EX_INDEX_SSL_CTX (calls_log w) = 1%nat.
Proof.
  destruct (run unbounded_facility example_schedule
              (init_world example_progs example_storage 0%N))
    as [w|] eqn:Hrun; [|vm_compute in Hrun; discriminate].
  exists w. split; [reflexivity|].
  assert (finished w = true) as Hfin
    by (revert Hrun; vm_compute; intros [= <-]; reflexivity).
  destruct example_ctx_storage as [Hsingle Hexcl].
  destruct (exactly_one_allocation unbounded_facility example_progs
              example_storage 0%N example_schedule w
              CRYPTO_EX_INDEX_SSL_CTX 8%N example_storage_ok Hsingle Hexcl)
    as (_ & _ & Hone).
  - exists (-1). split; [reflexivity|lia].
  - exists (CallSSLCtx 8%N). split; [|reflexivity].
    unfold example_progs. simpl. left.
  - exact Hrun.
  - exact Hfin.
  - destruct Hone as (Hinv & Hgr & _).
    + intros a x'. simpl. lia.
    + split; assumption.
Defined.

(* ===================================================================== *)
(** * One index for each storage *)
(* ===================================================================== *)

Section AttributionFacts.

Context {ex_state : Type}.
Variable get_ex_new_index : ex_class → ex_args → ex_state → Z * ex_state.
Variable P : call → Prop.
Variable p : addr.

Implicit Types (w : world ex_state) (t : thread) (i j : nat).

Local Abbreviation moves := (trans get_ex_new_index P).
Local Abbreviation asks := (asks_for get_ex_new_index p).

(** The facility is asked for [p] only by a thread that has found [p]
    negative; the thread then holds the answer, on its way to [p]. *)
Lemma step_asks w i :
  inv P w →
  ∃ w',
    step get_ex_new_index i w = Some w'
    ∧ moves i w w'
    ∧ (asks i w = None
       ∨ ∃ t r, threads w !! i = Some t
                ∧ (∀ r', cur t ≠ store_part p r')
                ∧ sIndexLock_ w = Some i
                ∧ holds_negative (wmem w) p
                ∧ asks i w = Some r
                ∧ ∃ t', threads w' !! i = Some t' ∧ cur t' = store_part p r).
Proof.
  intros Hinv.
  destruct (step_trans get_ex_new_index P w i Hinv) as (w' & Hstep & Htr).
  exists w'. split; [exact Hstep|]. split; [exact Htr|].
  pose proof Hinv as [Hthreads _].
  unfold asks_for. destruct (threads w !! i) as [t|] eqn:Ht; [|now left].
  destruct (Hthreads i t Ht) as (ps & Hcur & _ & Hcs & Hfact).
  rewrite Hcur.
  destruct ps as [|c|c|c|c r|]; simpl; try (now left).
  - rewrite call_code_parts. now left.
  - destruct (decide (call_ptr c = p)) as [Hp|Hne]; [|now left].
    right. exists t, (get_ex_new_index (call_class c) (call_args c) (ex w)).1.
    split; [reflexivity|]. split; [intros r'; now rewrite Hcur|].
    split; [now apply Hcs|]. split; [now rewrite <- Hp|].
    split; [reflexivity|].
    revert Hstep. unfold step. rewrite Ht, Hcur. simpl.
    destruct (get_ex_new_index (call_class c) (call_args c) (ex w)) as [r x].
    intros [= <-]. eexists. split.
    + apply (lookup_set_thread_eq _ _ _ t). exact Ht.
    + simpl. now rewrite Hp.
Qed.

(** What is in [p], or on its way there, stays so. *)
Lemma trans_settled w w' i (r : Z) :
  inv P w → 0 ≤ r → settled p r w → moves i w w' → settled p r w'.
Proof.
  intros Hinv Hr Hs Htr.
  destruct Htr as [|t c rest Ht Hcur Htodo Hlock HP
                   |t c Ht Hcur Hlock HP
                   |t c v Ht Hcur Hlock HP Hv Hneg
                   |t c v Ht Hcur Hlock HP Hv Hpos
                   |t c r0 x Ht Hcur Hlock HP Hneg Hget
                   |t c r0 Ht Hcur Hlock HP Hneg
                   |t Ht Hcur Hlock HP];
    [exact Hs
    |apply (settled_update P p w _ i t); try done;
       intros r'; rewrite Hcur; simpl; rewrite ?call_code_parts; discriminate..
    | |apply (settled_update P p w _ i t); try done;
       intros r'; rewrite Hcur; discriminate].
  left. simpl. destruct Hs as [Hidx|(j & tj & Hj & Hcurj)].
  - rewrite lookup_insert_ne; [exact Hidx|]. intros Heq.
    apply (negative_not_index (wmem w) p); [now rewrite <- Heq|now exists r].
  - pose proof (pending_holds_lock P w j tj p r Hinv Hj Hcurj) as Hlj.
    rewrite Hlock in Hlj. injection Hlj as ->.
    rewrite Ht in Hj. injection Hj as ->.
    rewrite Hcur in Hcurj. simpl in Hcurj. injection Hcurj as -> ->.
    apply lookup_insert_eq.
Qed.

Lemma settled_not_asked w i (r : Z) :
  inv P w → 0 ≤ r → settled p r w → asks i w = None.
Proof.
  intros Hinv Hr Hs.
  destruct (step_asks w i Hinv) as (w' & _ & _ & [Hnone|Hask]); [exact Hnone|].
  exfalso. destruct Hask as (t & r' & Ht & Hnot & Hlock & Hneg & _).
  destruct Hs as [Hidx|(j & tj & Hj & Hcurj)].
  - apply (negative_not_index (wmem w) p); [exact Hneg|now exists r].
  - pose proof (pending_holds_lock P w j tj p r Hinv Hj Hcurj) as Hlj.
    rewrite Hlock in Hlj. injection Hlj as ->.
    rewrite Ht in Hj. injection Hj as ->. now apply (Hnot r).
Qed.

Lemma run_settled sched w (r : Z) :
  inv P w → 0 ≤ r → settled p r w →
  asked_at get_ex_new_index p sched w = 0%nat
  ∧ granted_at get_ex_new_index p sched w = 0%nat.
Proof.
  revert w. induction sched as [|i sched IH]; intros w Hinv Hr Hs;
    [now split|].
  cbn [asked_at granted_at].
  destruct (step_trans get_ex_new_index P w i Hinv) as (w' & -> & Htr).
  rewrite (settled_not_asked w i r Hinv Hr Hs).
  destruct (IH w') as [-> ->];
    [now apply (trans_inv get_ex_new_index P w _ i)|exact Hr
    |now apply (trans_settled w w' i)|].
  now split.
Qed.

(** However the threads are scheduled, the facility hands out at most
    one index on behalf of [p]. *)
Lemma run_granted_once sched w :
  inv P w → (granted_at get_ex_new_index p sched w ≤ 1)%nat.
Proof.
  revert w. induction sched as [|i sched IH]; intros w Hinv;
    cbn [granted_at]; [lia|].
  destruct (step_asks w i Hinv) as (w' & -> & Htr & Hask).
  assert (inv P w') as Hinv' by now apply (trans_inv get_ex_new_index P w _ i).
  destruct Hask as [->|(t & r & _ & _ & _ & _ & -> & t' & Ht' & Hcur')].
  - specialize (IH w' Hinv'). lia.
  - destruct (Z.leb_spec 0 r) as [Hr|Hr]; [|specialize (IH w' Hinv'); lia].
    destruct (run_settled sched w' r Hinv' Hr) as [_ ->]; [|lia].
    right. now exists i, t'.
Qed.

Lemma granted_at_app sched sched' w w' :
  run get_ex_new_index sched w = Some w' →
  granted_at get_ex_new_index p (sched ++ sched') w
  = (granted_at get_ex_new_index p sched w
     + granted_at get_ex_new_index p sched' w')%nat.
Proof.
  revert w. induction sched as [|i sched IH]; intros w; simpl.
  - now intros [= <-].
  - destruct (step get_ex_new_index i w) as [w1|]; [|discriminate].
    intros Hrun. rewrite (IH w1 Hrun). lia.
Qed.

End AttributionFacts.

Section StorageTheorem.

Context {ex_state : Type}.
Variable get_ex_new_index : ex_class → ex_args → ex_state → Z * ex_state.

(** C1, amended. Threads that call the three acquisition functions any
    number of times, run under any schedule, never go wrong as long as
    every storage they name holds an [int].  At any two points [w] and,
    later, [w'] of the run: at most one thread is between taking the
    lock and giving it back; a storage that holds a non-negative index
    in [w] holds the same index in [w'], so that whoever reads an index
    there reads the same one.  For every storage [p], whichever of the
    three functions the callers use on it, the facility hands out at
    most one index on its behalf in the whole run, and once [p] holds an
    index the facility is not asked on its behalf again.  For a class
    whose callers all name one storage [p], the facility has handed out
    at most one index for the class by [w']; if [p] holds an index in
    [w] it is not asked for the class between [w] and [w']; and an index
    handed out for the class is what [p] holds whenever the lock is
    free. *)
Theorem index_allocated_once_per_storage
    (progs : list (list call)) (m : gmap N object) (x : ex_state)
    (sched sched' : list nat) :
  storage_ok progs m →
  ∃ w w',
    run get_ex_new_index sched (init_world progs m x) = Some w
    ∧ run get_ex_new_index sched' w = Some w'
    ∧ (∀ i j ti tj,
         threads w' !! i = Some ti → threads w' !! j = Some tj →
         in_critical_section (cur ti) = true →
         in_critical_section (cur tj) = true →
         i = j)
    ∧ (∀ p v, wmem w !! p = Some (ObjInt v) → 0 ≤ v →
              wmem w' !! p = Some (ObjInt v))
    ∧ (∀ p,
         (granted_at get_ex_new_index p sched (init_world progs m x)
          + granted_at get_ex_new_index p sched' w ≤ 1)%nat)
    ∧ (∀ p, holds_index (wmem w) p →
            asked_at get_ex_new_index p sched' w = 0%nat
            ∧ granted_at get_ex_new_index p sched' w = 0%nat)
    ∧ (∀ cl p, single_storage progs cl p →
         (grants cl (calls_log w') ≤ 1)%nat
         ∧ (holds_index (wmem w) p →
            invocations cl (calls_log w') = invocations cl (calls_log w))
         ∧ (∀ e, e ∈ calls_log w' → is_grant cl e = true →
                 sIndexLock_ w' = None →
                 wmem w' !! p = Some (ObjInt (ev_result e)))).
Proof.
  intros Hok.
  destruct (index_allocated_at_most_once get_ex_new_index progs m x
              sched sched' Hok)
    as (w & w' & Hrun & Hrun' & Hmutex & Hstable & Hclass).
  exists w, w'. split; [exact Hrun|]. split; [exact Hrun'|].
  split; [exact Hmutex|]. split; [exact Hstable|].
  set (P := λ c, c ∈ concat progs).
  pose proof (init_inv progs m x Hok) as Hinv0. fold P in Hinv0.
  destruct (run_inv get_ex_new_index P sched _ Hinv0) as (w0 & Hrun0 & Hinv & _).
  rewrite Hrun in Hrun0. injection Hrun0 as <-.
  split; [|split; [|exact Hclass]].
  - intros p.
    rewrite <- (granted_at_app get_ex_new_index p sched sched' _ w Hrun).
    now apply (run_granted_once get_ex_new_index P p).
  - intros p (v & Hv & Hpos).
    apply (run_settled get_ex_new_index P p sched' w v Hinv Hpos). now left.
Qed.

End StorageTheorem.

Lemma index_allocated_once_per_storage_witness :
  ∃ w w',
    run unbounded_facility [0; 1; 0; 1; 0; 1; 0]%nat
      (init_world example_two_storages example_two_negative 0%N) = Some w
    ∧ run unbounded_facility [1; 0; 0; 1; 1; 1; 0; 1; 1]%nat w = Some w'
    ∧ (granted_at unbounded_facility 8%N [0; 1; 0; 1; 0; 1; 0]%nat
         (init_world example_two_storages example_two_negative 0%N)
       + granted_at unbounded_facility 8%N
           [1; 0; 0; 1; 1; 1; 0; 1; 1]%nat w ≤ 1)%nat
    ∧ (granted_at unbounded_facility 9%N [0; 1; 0; 1; 0; 1; 0]%nat
         (init_world example_two_storages example_two_negative 0%N)
       + granted_at unbounded_facility 9%N
           [1; 0; 0; 1; 1; 1; 0; 1; 1]%nat w ≤ 1)%nat.
Proof.
  assert (storage_ok example_two_storages example_two_negative) as Hok.
  { intros c Hc. unfold example_two_storages in Hc. simpl in Hc.
    repeat (apply elem_of_cons in Hc as [->|Hc]);
      try (now apply elem_of_nil in Hc); exists (-1); reflexivity. }
  destruct (index_allocated_once_per_storage unbounded_facility
              example_two_storages example_two_negative 0%N
              [0; 1; 0; 1; 0; 1; 0]%nat
              [1; 0; 0; 1; 1; 1; 0; 1; 1]%nat Hok)
    as (w & w' & Hrun & Hrun' & _ & _ & Hstorage & _).
  exists w, w'. split; [exact Hrun|]. split; [exact Hrun'|].
  split; apply Hstorage.
Defined.

(** C1, as stated, fails twice over.  Two callers of one function, each
    with a storage of its own, get an index each: two indices handed out
    for one kind.  And two callers that share a storage need not see the
    same value in it: with a facility that fails once, the first returns
    with -1 in the storage and the second with the index 1. *)
Lemma one_kind_two_indices_and_two_values :
  (∃ w,
     run unbounded_facility (replicate 6 0%nat ++ replicate 6 1%nat)
       (init_world example_two_storages example_two_negative 0%N) = Some w
     ∧ finished w = true
     ∧ grants CRYPTO_EX_INDEX_SSL_CTX (calls_log w) = 2%nat
     ∧ wmem w !! 8%N = Some (ObjInt 0)
     ∧ wmem w !! 9%N = Some (ObjInt 1))
  ∧ (∃ w1 w2,
       run flaky_facility (replicate 6 0%nat)
         (init_world example_two_callers example_one_negative 0%N) = Some w1
       ∧ threads w1 !! 0%nat = Some (Thread Return [])
       ∧ sIndexLock_ w1 = None
       ∧ wmem w1 !! 8%N = Some (ObjInt (-1))
       ∧ run flaky_facility (replicate 6 1%nat) w1 = Some w2
       ∧ finished w2 = true
       ∧ wmem w2 !! 8%N = Some (ObjInt 1)
       ∧ grants CRYPTO_EX_INDEX_SSL_CTX (calls_log w2) = 1%nat).
Proof.
  split.
  - eexists. split; [vm_compute; reflexivity|]. repeat split.
  - eexists _, _. split; [vm_compute; reflexivity|].
    split; [reflexivity|]. split; [reflexivity|]. split; [reflexivity|].
    split; [vm_compute; reflexivity|]. repeat split.
Qed.
